(** * OBF: the Ouzel Binary Format value model

    A shallow embedding of [ouzel::obf::Value] (ouzel/utils/OBF.h): the
    tagged document node with all of its payload members, its constructors,
    assignment operators, typed accessors and indexers, followed by the
    binary codec whose members [encode] and [decode] the header declares. *)

From Stdlib Require Import NArith ZArith Lia Strings.Byte Strings.String.
From stdpp Require Import gmap strings list sorting.

Local Open Scope N_scope.
Local Set Warnings "-register-all".

(** ** The tag: [enum class Type : uint8_t] *)

Inductive ValueType : Type :=
| NONE
| INT8
| INT16
| INT32
| INT64
| FLOAT
| DOUBLE
| STRING
| LONG_STRING
| BYTE_ARRAY
| OBJECT
| ARRAY
| DICTIONARY.

#[global] Instance ValueType_eq_dec : EqDecision ValueType.
Proof. solve_decision. Defined.

#[global] Instance N_gt_dec : RelDecision N.gt.
Proof.
  intros x y. destruct (decide (y < x)); [left | right]; lia.
Defined.

(** ** The node: every payload member is resident whatever the tag.
    [uint64_t] is an [N] below [2^64]; a [double] is carried as its 64-bit
    pattern; [std::map] is a finite map, [std::vector] a list. *)

Inductive Value : Type := mkValue {
  type : ValueType;
  intValue : N;
  doubleValue : N;
  stringValue : string;
  byteArrayValue : list byte;
  objectValue : gmap N Value;
  arrayValue : list Value;
  dictionaryValue : gmap string Value
}.

Definition set_type (t : ValueType) (v : Value) : Value :=
  mkValue t (intValue v) (doubleValue v) (stringValue v) (byteArrayValue v)
          (objectValue v) (arrayValue v) (dictionaryValue v).

Definition set_intValue (n : N) (v : Value) : Value :=
  mkValue (type v) n (doubleValue v) (stringValue v) (byteArrayValue v)
          (objectValue v) (arrayValue v) (dictionaryValue v).

Definition set_doubleValue (d : N) (v : Value) : Value :=
  mkValue (type v) (intValue v) d (stringValue v) (byteArrayValue v)
          (objectValue v) (arrayValue v) (dictionaryValue v).

Definition set_stringValue (s : string) (v : Value) : Value :=
  mkValue (type v) (intValue v) (doubleValue v) s (byteArrayValue v)
          (objectValue v) (arrayValue v) (dictionaryValue v).

Definition set_byteArrayValue (b : list byte) (v : Value) : Value :=
  mkValue (type v) (intValue v) (doubleValue v) (stringValue v) b
          (objectValue v) (arrayValue v) (dictionaryValue v).

Definition set_objectValue (m : gmap N Value) (v : Value) : Value :=
  mkValue (type v) (intValue v) (doubleValue v) (stringValue v)
          (byteArrayValue v) m (arrayValue v) (dictionaryValue v).

Definition set_arrayValue (l : list Value) (v : Value) : Value :=
  mkValue (type v) (intValue v) (doubleValue v) (stringValue v)
          (byteArrayValue v) (objectValue v) l (dictionaryValue v).

Definition set_dictionaryValue (d : gmap string Value) (v : Value) : Value :=
  mkValue (type v) (intValue v) (doubleValue v) (stringValue v)
          (byteArrayValue v) (objectValue v) (arrayValue v) d.

(** ** Outcomes of a member call.  [assert] aborts when it is compiled in
    and its condition is false; unchecked [std::vector] indexing out of
    range has no defined result. *)

Inductive outcome (A : Type) : Type :=
| Returns (a : A)
| AssertionFailed
| UndefinedBehaviour.

Arguments Returns {A} a.
Arguments AssertionFailed {A}.
Arguments UndefinedBehaviour {A}.

(** A member function: from the node before the call to its result and the
    node after the call. *)
Definition method (A : Type) : Type := Value → outcome (A * Value).

Definition method_ret {A} (a : A) : method A := λ this, Returns (a, this).

Definition method_bind {A B} (m : method A) (k : A → method B) : method B :=
  λ this,
    match m this with
    | Returns (a, this') => k a this'
    | AssertionFailed => AssertionFailed
    | UndefinedBehaviour => UndefinedBehaviour
    end.

Definition get_this : method Value := λ this, Returns (this, this).
Definition put_this (v : Value) : method () := λ _, Returns ((), v).
Definition modify_this (f : Value → Value) : method () :=
  λ this, Returns ((), f this).
Definition undefined {A} : method A := λ _, UndefinedBehaviour.

Declare Scope method_scope.
Delimit Scope method_scope with method.
Notation "x <- m ;; k" := (method_bind m (λ x, k))
  (at level 100, m at next level, right associativity) : method_scope.
Notation "m ;; k" := (method_bind m (λ _, k))
  (at level 100, right associativity) : method_scope.

(** A reference returned by a mutable indexer, as the place it denotes
    inside the node. *)
Inductive reference : Type :=
| ObjectElement (key : N)
| ArrayElement (index : N)
| DictionaryElement (key : string).

Definition deref (r : reference) (v : Value) : option Value :=
  match r with
  | ObjectElement key => objectValue v !! key
  | ArrayElement index => arrayValue v !! N.to_nat index
  | DictionaryElement key => dictionaryValue v !! key
  end.

(** [std::numeric_limits<T>::max()] *)
Definition uint8_max : N := 255.
Definition uint16_max : N := 65535.
Definition uint32_max : N := 4294967295.

(** [static_cast] of the 64-bit magnitude to an unsigned and to a signed
    (two's complement) integer of [w] bits. *)
Definition static_cast_unsigned (w : N) (n : N) : N := n mod 2 ^ w.

Definition static_cast_signed (w : N) (n : N) : Z :=
  let r := n mod 2 ^ w in
  if r <? 2 ^ (w - 1) then Z.of_N r else (Z.of_N r - Z.of_N (2 ^ w))%Z.

(** The four unsigned parameter types of the integer overloads. *)
Inductive uint_width : Type := U8 | U16 | U32 | U64.

Definition width_bits (w : uint_width) : N :=
  match w with U8 => 8 | U16 => 16 | U32 => 32 | U64 => 64 end.

Definition is_integer_type (t : ValueType) : bool :=
  bool_decide (t = INT8) || bool_decide (t = INT16)
  || bool_decide (t = INT32) || bool_decide (t = INT64).

Definition is_floating_type (t : ValueType) : bool :=
  bool_decide (t = FLOAT) || bool_decide (t = DOUBLE).

Definition is_string_type (t : ValueType) : bool :=
  bool_decide (t = STRING) || bool_decide (t = LONG_STRING).

Section OBF.

(** Build configuration: [NDEBUG] compiles every [assert] out. *)
Variable NDEBUG : bool.

(** [intValue] and [doubleValue] have no default member initialiser: a
    constructor that does not name them leaves them indeterminate. *)
Variable indeterminate_int : N.
Variable indeterminate_double : N.

(** [static_cast<float>] of a double and the widening of a float back to
    double, on bit patterns (32-bit and 64-bit). *)
Variable double_to_float : N → N.
Variable float_to_double : N → N.

(** Byte order of every multi-byte integer and length prefix on the wire:
    the format fixes one and holds it on both sides. *)
Variable big_endian : bool.

Definition assert_ (c : bool) : method () :=
  λ this, if NDEBUG || c then Returns ((), this) else AssertionFailed.

(** *** Constructors *)

(** [Value() {}] *)
Definition Value_default : Value :=
  mkValue NONE indeterminate_int indeterminate_double EmptyString [] ∅ [] ∅.

(** [Value(Type aType): type(aType) {}] *)
Definition Value_Type (aType : ValueType) : Value :=
  set_type aType Value_default.

Definition Value_uint8 (value : N) : Value :=
  set_intValue value (set_type INT8 Value_default).

Definition Value_uint16 (value : N) : Value :=
  let v := set_intValue value Value_default in
  if bool_decide (intValue v > uint8_max) then set_type INT16 v
  else set_type INT8 v.

Definition Value_uint32 (value : N) : Value :=
  let v := set_intValue value Value_default in
  if bool_decide (intValue v > uint16_max) then set_type INT32 v
  else if bool_decide (intValue v > uint8_max) then set_type INT16 v
  else set_type INT8 v.

Definition Value_uint64 (value : N) : Value :=
  let v := set_intValue value Value_default in
  if bool_decide (intValue v > uint32_max) then set_type INT64 v
  else if bool_decide (intValue v > uint16_max) then set_type INT32 v
  else if bool_decide (intValue v > uint8_max) then set_type INT16 v
  else set_type INT8 v.

(** Overload resolution on the argument's unsigned type. *)
Definition Value_uint (w : uint_width) (value : N) : Value :=
  match w with
  | U8 => Value_uint8 value
  | U16 => Value_uint16 value
  | U32 => Value_uint32 value
  | U64 => Value_uint64 value
  end.

Definition Value_float (value : N) : Value :=
  set_doubleValue (float_to_double value) (set_type FLOAT Value_default).

Definition Value_double (value : N) : Value :=
  set_doubleValue value (set_type DOUBLE Value_default).

Definition Value_string (value : string) : Value :=
  let v := set_stringValue value Value_default in
  if bool_decide (N.of_nat (String.length value) > uint16_max)
  then set_type LONG_STRING v
  else set_type STRING v.

Definition Value_bytes (value : list byte) : Value :=
  set_byteArrayValue value (set_type BYTE_ARRAY Value_default).

Definition Value_map (value : gmap N Value) : Value :=
  set_objectValue value (set_type OBJECT Value_default).

Definition Value_vector (value : list Value) : Value :=
  set_arrayValue value (set_type ARRAY Value_default).

(** *** Assignment operators *)

Definition assign_Type (newType : ValueType) : method () :=
  modify_this (set_type newType).

Definition assign_uint8 (value : N) : method () :=
  (modify_this (set_type INT8);;
   modify_this (set_intValue value))%method.

Definition assign_uint16 (value : N) : method () :=
  (modify_this (set_intValue value);;
   this <- get_this;;
   if bool_decide (intValue this > uint8_max)
   then modify_this (set_type INT16)
   else modify_this (set_type INT8))%method.

Definition assign_uint32 (value : N) : method () :=
  (modify_this (set_intValue value);;
   this <- get_this;;
   if bool_decide (intValue this > uint16_max)
   then modify_this (set_type INT32)
   else if bool_decide (intValue this > uint8_max)
   then modify_this (set_type INT16)
   else modify_this (set_type INT8))%method.

Definition assign_uint64 (value : N) : method () :=
  (modify_this (set_intValue value);;
   this <- get_this;;
   if bool_decide (intValue this > uint32_max)
   then modify_this (set_type INT64)
   else if bool_decide (intValue this > uint16_max)
   then modify_this (set_type INT32)
   else if bool_decide (intValue this > uint8_max)
   then modify_this (set_type INT16)
   else modify_this (set_type INT8))%method.

Definition assign_uint (w : uint_width) (value : N) : method () :=
  match w with
  | U8 => assign_uint8 value
  | U16 => assign_uint16 value
  | U32 => assign_uint32 value
  | U64 => assign_uint64 value
  end.

Definition assign_float (value : N) : method () :=
  (modify_this (set_type FLOAT);;
   modify_this (set_doubleValue (float_to_double value)))%method.

Definition assign_double (value : N) : method () :=
  (modify_this (set_type DOUBLE);;
   modify_this (set_doubleValue value))%method.

Definition assign_string (value : string) : method () :=
  (modify_this (set_stringValue value);;
   if bool_decide (N.of_nat (String.length value) ≤ uint16_max)
   then modify_this (set_type STRING)
   else modify_this (set_type LONG_STRING))%method.

Definition assign_bytes (value : list byte) : method () :=
  (modify_this (set_type BYTE_ARRAY);;
   modify_this (set_byteArrayValue value))%method.

Definition assign_map (value : gmap N Value) : method () :=
  (modify_this (set_type OBJECT);;
   modify_this (set_objectValue value))%method.

Definition assign_vector (value : list Value) : method () :=
  (modify_this (set_type ARRAY);;
   modify_this (set_arrayValue value))%method.

(** *** Accessors (all [const]) *)

Definition getType : method ValueType :=
  (this <- get_this;; method_ret (type this))%method.

Definition as_integer {A} (cast : N → A) : method A :=
  (this <- get_this;;
   assert_ (is_integer_type (type this));;
   method_ret (cast (intValue this)))%method.

Definition asInt8 : method Z := as_integer (static_cast_signed 8).
Definition asUInt8 : method N := as_integer (static_cast_unsigned 8).
Definition asInt16 : method Z := as_integer (static_cast_signed 16).
Definition asUInt16 : method N := as_integer (static_cast_unsigned 16).
Definition asInt32 : method Z := as_integer (static_cast_signed 32).
Definition asUInt32 : method N := as_integer (static_cast_unsigned 32).
Definition asInt64 : method Z := as_integer (static_cast_signed 64).
Definition asUInt64 : method N := as_integer (λ n, n).

Definition asFloat : method N :=
  (this <- get_this;;
   assert_ (is_floating_type (type this));;
   method_ret (double_to_float (doubleValue this)))%method.

Definition asDouble : method N :=
  (this <- get_this;;
   assert_ (is_floating_type (type this));;
   method_ret (doubleValue this))%method.

Definition asString : method string :=
  (this <- get_this;;
   assert_ (is_string_type (type this));;
   method_ret (stringValue this))%method.

Definition asByteArray : method (list byte) :=
  (this <- get_this;;
   assert_ (bool_decide (type this = BYTE_ARRAY));;
   method_ret (byteArrayValue this))%method.

Definition asMap : method (gmap N Value) :=
  (this <- get_this;;
   assert_ (bool_decide (type this = OBJECT));;
   method_ret (objectValue this))%method.

Definition asVector : method (list Value) :=
  (this <- get_this;;
   assert_ (bool_decide (type this = ARRAY));;
   method_ret (arrayValue this))%method.

Definition asDictionary : method (gmap string Value) :=
  (this <- get_this;;
   assert_ (bool_decide (type this = DICTIONARY));;
   method_ret (dictionaryValue this))%method.

(** [begin()] and [end()], as positions in the array payload. *)
Definition begin_ : method nat :=
  (this <- get_this;;
   assert_ (bool_decide (type this = ARRAY));;
   method_ret 0%nat)%method.

Definition end_ : method nat :=
  (this <- get_this;;
   assert_ (bool_decide (type this = ARRAY));;
   method_ret (length (arrayValue this)))%method.

Definition getSize : method N :=
  (this <- get_this;;
   assert_ (bool_decide (type this = ARRAY));;
   method_ret (static_cast_unsigned 32 (N.of_nat (length (arrayValue this)))))%method.

(** *** Indexers *)

(** [Value operator[](uint32_t key) const] *)
Definition subscript_uint32_const (key : N) : method Value :=
  (this <- get_this;;
   assert_ (bool_decide (type this = OBJECT) || bool_decide (type this = ARRAY));;
   if bool_decide (type this = OBJECT) then
     match objectValue this !! key with
     | Some found => method_ret found
     | None => method_ret Value_default
     end
   else if bool_decide (type this = ARRAY) then
     if bool_decide (key < N.of_nat (length (arrayValue this))) then
       match arrayValue this !! N.to_nat key with
       | Some element => method_ret element
       | None => undefined
       end
     else method_ret Value_default
   else method_ret Value_default)%method.

(** [std::map::operator[]]: a missing key is inserted with a
    default-constructed node. *)
Definition map_subscript {K} `{Countable K} (key : K) (m : gmap K Value)
  : gmap K Value :=
  match m !! key with
  | Some _ => m
  | None => <[key := Value_default]> m
  end.

(** [Value& operator[](uint32_t key)] *)
Definition subscript_uint32 (key : N) : method reference :=
  (this <- get_this;;
   assert_ (bool_decide (type this = OBJECT) || bool_decide (type this = ARRAY));;
   if bool_decide (type this = OBJECT) then
     modify_this (λ v, set_objectValue (map_subscript key (objectValue v)) v);;
     method_ret (ObjectElement key)
   else
     modify_this (set_type ARRAY);;
     if bool_decide (key < N.of_nat (length (arrayValue this)))
     then method_ret (ArrayElement key)
     else undefined)%method.

(** [Value operator[](const std::string& key) const] *)
Definition subscript_string_const (key : string) : method Value :=
  (this <- get_this;;
   assert_ (bool_decide (type this = DICTIONARY));;
   match dictionaryValue this !! key with
   | Some found => method_ret found
   | None => method_ret Value_default
   end)%method.

(** [Value& operator[](const std::string& key)] *)
Definition subscript_string (key : string) : method reference :=
  (this <- get_this;;
   assert_ (bool_decide (type this = DICTIONARY));;
   modify_this (λ v, set_dictionaryValue (map_subscript key (dictionaryValue v)) v);;
   method_ret (DictionaryElement key))%method.

Definition hasElement_uint32 (key : N) : method bool :=
  (this <- get_this;;
   assert_ (bool_decide (type this = OBJECT) || bool_decide (type this = ARRAY));;
   if bool_decide (type this = OBJECT) then
     method_ret (bool_decide (is_Some (objectValue this !! key)))
   else if bool_decide (type this = ARRAY) then
     method_ret (bool_decide (key < N.of_nat (length (arrayValue this))))
   else method_ret false)%method.

Definition hasElement_string (key : string) : method bool :=
  (this <- get_this;;
   assert_ (bool_decide (type this = DICTIONARY));;
   method_ret (bool_decide (is_Some (dictionaryValue this !! key))))%method.

(** [void append(const Value& node)] *)
Definition append (node : Value) : method () :=
  modify_this (λ v, set_arrayValue (arrayValue v ++ [node]) v).


(** ** The binary codec

    The header declares [uint32_t decode(const std::vector<uint8_t>&,
    uint32_t offset = 0)] and [uint32_t encode(std::vector<uint8_t>&)
    const]; the file that defines them is not among the sources at hand.
    Everything in this part is therefore modelled from the specification's
    section 4.2, the two declarations giving the interface. *)

(** Modelled from the spec: the tag byte of each [Type], the enumerators in
    their declared order ([enum class Type : uint8_t]). *)
Definition tag_of_type (t : ValueType) : N :=
  match t with
  | NONE => 0
  | INT8 => 1
  | INT16 => 2
  | INT32 => 3
  | INT64 => 4
  | FLOAT => 5
  | DOUBLE => 6
  | STRING => 7
  | LONG_STRING => 8
  | BYTE_ARRAY => 9
  | OBJECT => 10
  | ARRAY => 11
  | DICTIONARY => 12
  end.

(** Modelled from the spec: the inverse reading of a tag byte; any other
    byte is an unrecognized tag. *)
Definition type_of_tag (n : N) : option ValueType :=
  match n with
  | 0 => Some NONE
  | 1 => Some INT8
  | 2 => Some INT16
  | 3 => Some INT32
  | 4 => Some INT64
  | 5 => Some FLOAT
  | 6 => Some DOUBLE
  | 7 => Some STRING
  | 8 => Some LONG_STRING
  | 9 => Some BYTE_ARRAY
  | 10 => Some OBJECT
  | 11 => Some ARRAY
  | 12 => Some DICTIONARY
  | _ => None
  end.

(** Modelled from the spec: one byte of [Value::encode]'s output, the low 8
    bits of a magnitude. *)
Definition byte_of_N (n : N) : byte :=
  default x00 (Byte.of_N (n mod 256)).

(** Modelled from the spec: the low [width] bytes of [n], least
    significant first; [Value::encode] writes a magnitude truncated to the
    width its tag implies. *)
Fixpoint uint_to_le (width : nat) (n : N) : list byte :=
  match width with
  | O => []
  | S width' => byte_of_N n :: uint_to_le width' (n / 256)
  end.

(** Modelled from the spec: the magnitude [Value::decode] reads back from
    bytes given least significant first. *)
Fixpoint le_to_uint (bytes : list byte) : N :=
  match bytes with
  | [] => 0
  | b :: bytes' => Byte.to_N b + 256 * le_to_uint bytes'
  end.

(** Modelled from the spec: a fixed-width unsigned integer as
    [Value::encode] writes it, in the one byte order the format fixes. *)
Definition write_uint (width : nat) (n : N) : list byte :=
  if big_endian then rev (uint_to_le width n) else uint_to_le width n.

(** Modelled from the spec: the same integer as [Value::decode] reads it. *)
Definition parse_uint (bytes : list byte) : N :=
  le_to_uint (if big_endian then rev bytes else bytes).

(** Modelled from the spec: [Value::encode] walks a [std::map] in its
    iteration order, ascending keys. *)
Definition key_le {K A} (le : K → K → bool) : relation (K * A) :=
  λ a b, le a.1 b.1 = true.

#[global] Instance key_le_dec {K A} (le : K → K → bool)
  : RelDecision (@key_le K A le).
Proof. intros a b. unfold key_le. apply _. Defined.

(** Modelled from the spec: the entries of a map in the order
    [Value::encode] writes them. *)
Definition entries_by {K} `{Countable K} {A} (le : K → K → bool)
    (m : gmap K A) : list (K * A) :=
  merge_sort (key_le le) (map_to_list m).

(** Modelled from the spec: a dictionary key as [Value::encode] writes it,
    a 2-byte length prefix and the key's bytes. *)
Definition write_key (key : string) : list byte :=
  write_uint 2 (N.of_nat (String.length key)) ++ list_byte_of_string key.

(** Modelled from the spec: the bytes [Value::encode] writes for a node
    (section 4.2, items 1 to 9): the tag byte, then the payload of that
    tag. *)
Fixpoint wire (v : Value) : list byte :=
  byte_of_N (tag_of_type (type v)) ::
  match type v with
  | NONE => []
  | INT8 => write_uint 1 (intValue v)
  | INT16 => write_uint 2 (intValue v)
  | INT32 => write_uint 4 (intValue v)
  | INT64 => write_uint 8 (intValue v)
  | FLOAT => write_uint 4 (double_to_float (doubleValue v))
  | DOUBLE => write_uint 8 (doubleValue v)
  | STRING =>
      write_uint 2 (N.of_nat (String.length (stringValue v)))
      ++ list_byte_of_string (stringValue v)
  | LONG_STRING =>
      write_uint 4 (N.of_nat (String.length (stringValue v)))
      ++ list_byte_of_string (stringValue v)
  | BYTE_ARRAY =>
      write_uint 4 (N.of_nat (length (byteArrayValue v)))
      ++ byteArrayValue v
  | OBJECT =>
      write_uint 4 (N.of_nat (size (objectValue v)))
      ++ concat ((λ entry, write_uint 4 entry.1 ++ entry.2)
                   <$> entries_by N.leb (wire <$> objectValue v))
  | ARRAY =>
      write_uint 4 (N.of_nat (length (arrayValue v)))
      ++ concat (wire <$> arrayValue v)
  | DICTIONARY =>
      write_uint 4 (N.of_nat (size (dictionaryValue v)))
      ++ concat ((λ entry, write_key entry.1 ++ entry.2)
                   <$> entries_by String.leb (wire <$> dictionaryValue v))
  end.

(** Modelled from the spec: [Value::encode(buffer)] appends the node's wire
    representation to the end of the buffer and returns the number of
    bytes written, a [uint32_t]. *)
Definition encode (buffer : list byte) (this : Value) : N * list byte :=
  (static_cast_unsigned 32 (N.of_nat (length (wire this))),
   buffer ++ wire this).

(** Modelled from the spec: the failures [Value::decode] reports, an
    unrecognized tag byte and a read past the end of the buffer.
    [FuelExhausted] belongs to the recursion bound of this model only. *)
Inductive decode_error : Type :=
| UnrecognizedTag
| OutOfBounds
| FuelExhausted.

(** Modelled from the spec: the result of [Value::decode] and of its
    parsers, a value or the error reported. *)
Inductive decoded (A : Type) : Type :=
| Decoded (a : A)
| DecodeError (e : decode_error).

#[global] Arguments Decoded {A} a.
#[global] Arguments DecodeError {A} e.

#[global] Instance decoded_ret : MRet decoded := @Decoded.

#[global] Instance decoded_bind : MBind decoded :=
  λ A B f m,
    match m with
    | Decoded a => f a
    | DecodeError e => DecodeError e
    end.

(** Modelled from the spec: [Value::decode] reading [n] bytes at the
    cursor; a request that goes past the end of the buffer is an error. *)
Definition read_bytes (n : N) (input : list byte)
    : decoded (list byte * list byte) :=
  if bool_decide (n ≤ N.of_nat (length input))
  then Decoded (take (N.to_nat n) input, drop (N.to_nat n) input)
  else DecodeError OutOfBounds.

(** Modelled from the spec: [Value::decode] reading a fixed-width integer,
    a payload or a length or count prefix. *)
Definition read_uint (width : nat) (input : list byte)
    : decoded (N * list byte) :=
  '(bytes, input) ← read_bytes (N.of_nat width) input;
  Decoded (parse_uint bytes, input).

(** Modelled from the spec: [Value::decode] reading a dictionary key. *)
Definition read_key (input : list byte) : decoded (string * list byte) :=
  '(len, input) ← read_uint 2 input;
  '(bytes, input) ← read_bytes len input;
  Decoded (string_of_list_byte bytes, input).

(** Modelled from the spec: the payload parsers behind [Value::decode]
    (section 4.2).  The cursor is the unread rest of the buffer; [this]
    receives the tag and the payload, children are decoded into fresh
    nodes, and a container payload is rebuilt entry by entry in wire
    order. *)
Fixpoint decode_value (fuel : nat) (this : Value) (input : list byte)
    {struct fuel} : decoded (Value * list byte) :=
  match fuel with
  | O => DecodeError FuelExhausted
  | S fuel =>
      '(tag, input) ← read_uint 1 input;
      match type_of_tag tag with
      | None => DecodeError UnrecognizedTag
      | Some t =>
          let this := set_type t this in
          match t with
          | NONE => Decoded (this, input)
          | INT8 =>
              '(n, input) ← read_uint 1 input;
              Decoded (set_intValue n this, input)
          | INT16 =>
              '(n, input) ← read_uint 2 input;
              Decoded (set_intValue n this, input)
          | INT32 =>
              '(n, input) ← read_uint 4 input;
              Decoded (set_intValue n this, input)
          | INT64 =>
              '(n, input) ← read_uint 8 input;
              Decoded (set_intValue n this, input)
          | FLOAT =>
              '(n, input) ← read_uint 4 input;
              Decoded (set_doubleValue (float_to_double n) this, input)
          | DOUBLE =>
              '(n, input) ← read_uint 8 input;
              Decoded (set_doubleValue n this, input)
          | STRING =>
              '(len, input) ← read_uint 2 input;
              '(bytes, input) ← read_bytes len input;
              Decoded (set_stringValue (string_of_list_byte bytes) this, input)
          | LONG_STRING =>
              '(len, input) ← read_uint 4 input;
              '(bytes, input) ← read_bytes len input;
              Decoded (set_stringValue (string_of_list_byte bytes) this, input)
          | BYTE_ARRAY =>
              '(len, input) ← read_uint 4 input;
              '(bytes, input) ← read_bytes len input;
              Decoded (set_byteArrayValue bytes this, input)
          | OBJECT =>
              '(count, input) ← read_uint 4 input;
              '(m, input) ← decode_object fuel count ∅ input;
              Decoded (set_objectValue m this, input)
          | ARRAY =>
              '(count, input) ← read_uint 4 input;
              '(l, input) ← decode_array fuel count [] input;
              Decoded (set_arrayValue l this, input)
          | DICTIONARY =>
              '(count, input) ← read_uint 4 input;
              '(d, input) ← decode_dictionary fuel count ∅ input;
              Decoded (set_dictionaryValue d this, input)
          end
      end
  end
with decode_array (fuel : nat) (count : N) (acc : list Value)
    (input : list byte) {struct fuel} : decoded (list Value * list byte) :=
  match fuel with
  | O => DecodeError FuelExhausted
  | S fuel =>
      if bool_decide (count = 0) then Decoded (acc, input)
      else
        '(element, input) ← decode_value fuel Value_default input;
        decode_array fuel (N.pred count) (acc ++ [element]) input
  end
with decode_object (fuel : nat) (count : N) (acc : gmap N Value)
    (input : list byte) {struct fuel} : decoded (gmap N Value * list byte) :=
  match fuel with
  | O => DecodeError FuelExhausted
  | S fuel =>
      if bool_decide (count = 0) then Decoded (acc, input)
      else
        '(key, input) ← read_uint 4 input;
        '(child, input) ← decode_value fuel Value_default input;
        decode_object fuel (N.pred count) (<[key := child]> acc) input
  end
with decode_dictionary (fuel : nat) (count : N) (acc : gmap string Value)
    (input : list byte) {struct fuel}
    : decoded (gmap string Value * list byte) :=
  match fuel with
  | O => DecodeError FuelExhausted
  | S fuel =>
      if bool_decide (count = 0) then Decoded (acc, input)
      else
        '(key, input) ← read_key input;
        '(child, input) ← decode_value fuel Value_default input;
        decode_dictionary fuel (N.pred count) (<[key := child]> acc) input
  end.

(** Modelled from the spec: [Value::decode(buffer, offset)] reads one node
    at [offset], stores it in [this] and returns the number of bytes
    consumed from [offset] on, or reports the error.  Every nested node and
    every sibling takes at least one byte, so twice the unread length (plus
    one) bounds the recursion. *)
Definition decode (buffer : list byte) (offset : N) (this : Value)
    : decoded (N * Value) :=
  let input := drop (N.to_nat offset) buffer in
  '(this', rest) ← decode_value (2 * length input + 1) this input;
  Decoded (static_cast_unsigned 32 (N.of_nat (length input - length rest)),
           this').

(** ** Structural equality and wire-representable nodes *)

(** The document a node denotes: its tag and the payload of the active
    variant, recursively through the containers.  Two nodes are
    structurally equal when they denote the same document; the members that
    the tag does not select play no part. *)
Inductive Document : Type :=
| DocNone
| DocInteger (t : ValueType) (magnitude : N)
| DocFloating (t : ValueType) (bits : N)
| DocString (t : ValueType) (s : string)
| DocBytes (b : list byte)
| DocObject (m : gmap N Document)
| DocArray (l : list Document)
| DocDictionary (d : gmap string Document).

Fixpoint document (v : Value) : Document :=
  match type v with
  | NONE => DocNone
  | INT8 | INT16 | INT32 | INT64 => DocInteger (type v) (intValue v)
  | FLOAT | DOUBLE => DocFloating (type v) (doubleValue v)
  | STRING | LONG_STRING => DocString (type v) (stringValue v)
  | BYTE_ARRAY => DocBytes (byteArrayValue v)
  | OBJECT => DocObject (document <$> objectValue v)
  | ARRAY => DocArray (document <$> arrayValue v)
  | DICTIONARY => DocDictionary (document <$> dictionaryValue v)
  end.

(** A node fits the wire format when every payload fits the width the
    format gives it: an integer fits the width of its tag, a FLOAT payload
    is a widened single, a STRING and a dictionary key have at most 65535
    bytes, every other length, count and object key fits 32 bits, and the
    children fit in turn. *)
Fixpoint representable (v : Value) : bool :=
  match type v with
  | NONE => true
  | INT8 => bool_decide (intValue v ≤ uint8_max)
  | INT16 => bool_decide (intValue v ≤ uint16_max)
  | INT32 => bool_decide (intValue v ≤ uint32_max)
  | INT64 => bool_decide (intValue v < 2 ^ 64)
  | FLOAT =>
      bool_decide (double_to_float (doubleValue v) ≤ uint32_max)
      && bool_decide (float_to_double (double_to_float (doubleValue v))
                      = doubleValue v)
  | DOUBLE => bool_decide (doubleValue v < 2 ^ 64)
  | STRING =>
      bool_decide (N.of_nat (String.length (stringValue v)) ≤ uint16_max)
  | LONG_STRING =>
      bool_decide (N.of_nat (String.length (stringValue v)) ≤ uint32_max)
  | BYTE_ARRAY =>
      bool_decide (N.of_nat (length (byteArrayValue v)) ≤ uint32_max)
  | OBJECT =>
      bool_decide (N.of_nat (size (objectValue v)) ≤ uint32_max)
      && forallb (λ entry, bool_decide (entry.1 ≤ uint32_max) && entry.2)
                 (map_to_list (representable <$> objectValue v))
  | ARRAY =>
      bool_decide (N.of_nat (length (arrayValue v)) ≤ uint32_max)
      && forallb representable (arrayValue v)
  | DICTIONARY =>
      bool_decide (N.of_nat (size (dictionaryValue v)) ≤ uint32_max)
      && forallb (λ entry,
                    bool_decide (N.of_nat (String.length entry.1) ≤ uint16_max)
                    && entry.2)
                 (map_to_list (representable <$> dictionaryValue v))
  end.

(** ** The laws the properties below are stated with *)

(** The narrowest of the four integer tags that holds magnitude [m]. *)
Definition narrowest_tag_law (m : N) (t : ValueType) : Prop :=
  (t = INT8 ↔ m ≤ 255)
  ∧ (t = INT16 ↔ 255 < m ≤ 65535)
  ∧ (t = INT32 ↔ 65535 < m ≤ 4294967295)
  ∧ (t = INT64 ↔ 4294967295 < m).

(** STRING up to 65535 bytes, LONG_STRING beyond. *)
Definition string_tag_law (s : string) (t : ValueType) : Prop :=
  (t = STRING ↔ N.of_nat (String.length s) ≤ 65535)
  ∧ (t = LONG_STRING ↔ 65535 < N.of_nat (String.length s)).

(** [r] is the [w]-bit two's complement reading of the low [w] bits of
    [m]. *)
Definition reinterprets (w : N) (m : N) (r : Z) : Prop :=
  (- 2 ^ (Z.of_N w - 1) ≤ r < 2 ^ (Z.of_N w - 1))%Z
  ∧ (r mod 2 ^ Z.of_N w = Z.of_N (m mod 2 ^ w))%Z.

(** The reads of the [const] indexers that find nothing: a key absent from
    an OBJECT or a DICTIONARY, an index at or past the end of an ARRAY. *)
Inductive reads_nothing (this : Value) : method Value → Prop :=
| absent_object_key (key : N) :
    type this = OBJECT →
    objectValue this !! key = None →
    reads_nothing this (subscript_uint32_const key)
| absent_dictionary_key (key : string) :
    type this = DICTIONARY →
    dictionaryValue this !! key = None →
    reads_nothing this (subscript_string_const key)
| index_out_of_range (index : N) :
    type this = ARRAY →
    N.of_nat (length (arrayValue this)) ≤ index →
    reads_nothing this (subscript_uint32_const index).

(** Decoding the wire representation of [v] gives back the document of
    [v] and stops right after it, with any fuel from twice its length on,
    into any node and before any further bytes. *)
Definition roundtrips (v : Value) : Prop :=
  ∀ (fuel : nat) (this : Value) (rest : list byte),
    (2 * length (wire v) ≤ fuel)%nat →
    ∃ w, decode_value fuel this (wire v ++ rest) = Decoded (w, rest)
         ∧ document w = document v.

(** The tags whose payload opens with a length prefix, and the width of
    that prefix in bytes. *)
Definition length_prefix_width (t : ValueType) : option nat :=
  match t with
  | STRING => Some 2%nat
  | LONG_STRING | BYTE_ARRAY => Some 4%nat
  | _ => None
  end.

(** The container tags, and the least number of bytes one entry takes: a
    4-byte key and a tag byte in an OBJECT, a tag byte in an ARRAY, a 2-byte
    key length and a tag byte in a DICTIONARY. *)
Definition entry_min_size (t : ValueType) : option N :=
  match t with
  | OBJECT => Some 5
  | ARRAY => Some 1
  | DICTIONARY => Some 3
  | _ => None
  end.

(** The tags whose payload has a fixed width, and that width in bytes. *)
Definition payload_width (t : ValueType) : option nat :=
  match t with
  | NONE => Some 0%nat
  | INT8 => Some 1%nat
  | INT16 => Some 2%nat
  | INT32 | FLOAT => Some 4%nat
  | INT64 | DOUBLE => Some 8%nat
  | _ => None
  end.

(** The key that opens an entry of a container tagged [t] is whole at the
    head of the input, and the second list is what follows it: four bytes
    in an OBJECT, nothing in an ARRAY, a 2-byte length prefix and the bytes
    it announces in a DICTIONARY. *)
Inductive key_complete : ValueType → list byte → list byte → Prop :=
| object_key (key rest : list byte) :
    length key = 4%nat →
    key_complete OBJECT (key ++ rest) rest
| array_index (input : list byte) :
    key_complete ARRAY input input
| dictionary_key (prefix key rest : list byte) :
    length prefix = 2%nat →
    N.of_nat (length key) = parse_uint prefix →
    key_complete DICTIONARY (prefix ++ key ++ rest) rest.

(** The key that opens an entry needs bytes past the end of the input: an
    OBJECT key with fewer than four bytes left, a DICTIONARY key whose
    length prefix is cut short or announces more bytes than are left. *)
Inductive key_past_end : ValueType → list byte → Prop :=
| object_key_past_end (input : list byte) :
    (length input < 4)%nat →
    key_past_end OBJECT input
| key_prefix_past_end (input : list byte) :
    (length input < 2)%nat →
    key_past_end DICTIONARY input
| key_length_past_end (prefix payload : list byte) :
    length prefix = 2%nat →
    N.of_nat (length payload) < parse_uint prefix →
    key_past_end DICTIONARY (prefix ++ payload).

(** The layout of section 4.2 as a grammar, apart from any decoder: the
    input opens with one whole node and the second list is what follows
    it.  A container holds exactly the entries its count prefix announces,
    each a key and a whole node. *)
Inductive well_formed : list byte → list byte → Prop :=
| fixed_width_node (b : byte) (t : ValueType) (width : nat)
    (payload rest : list byte) :
    type_of_tag (Byte.to_N b) = Some t →
    payload_width t = Some width →
    length payload = width →
    well_formed (b :: payload ++ rest) rest
| length_prefixed_node (b : byte) (t : ValueType) (width : nat)
    (prefix payload rest : list byte) :
    type_of_tag (Byte.to_N b) = Some t →
    length_prefix_width t = Some width →
    length prefix = width →
    N.of_nat (length payload) = parse_uint prefix →
    well_formed (b :: prefix ++ payload ++ rest) rest
| container_node (b : byte) (t : ValueType) (prefix input rest : list byte) :
    type_of_tag (Byte.to_N b) = Some t →
    is_Some (entry_min_size t) →
    length prefix = 4%nat →
    well_formed_entries t (parse_uint prefix) input rest →
    well_formed (b :: prefix ++ input) rest
with well_formed_entries : ValueType → N → list byte → list byte → Prop :=
| no_entry_left (t : ValueType) (input : list byte) :
    well_formed_entries t 0 input input
| entry_then_entries (t : ValueType) (count : N)
    (input input1 input2 rest : list byte) :
    count ≠ 0 →
    key_complete t input input1 →
    well_formed input1 input2 →
    well_formed_entries t (N.pred count) input2 rest →
    well_formed_entries t count input rest.

(** The unread input is malformed: reading one node from it by the layout
    of section 4.2 meets, at the node itself or at any depth inside it, a
    byte that is no tag, or a payload, a length prefix, a count prefix or a
    key that needs bytes past the end of the input.

    At the node itself: the input has no byte left for the tag
    ([tag_past_end]); the tag byte is not recognized ([unrecognized_tag]);
    a fixed-width payload is cut short ([payload_past_end]); a length or
    count prefix is cut short ([length_prefix_past_end],
    [count_prefix_past_end]); a length prefix announces more bytes than are
    left ([length_past_end]).  Inside a container ([entries_past_end]), at
    the first entry that cannot be read whole: its key is cut short
    ([key_cut_short]), the node after its key is malformed in turn
    ([child_malformed]), or the entry is whole and the fault lies in the
    entries the count still announces ([later_entry_malformed]); a count
    that announces an entry where the input has ended is the case of a
    child with no byte left for its tag. *)
Inductive malformed : list byte → Prop :=
| tag_past_end :
    malformed []
| unrecognized_tag (b : byte) (rest : list byte) :
    type_of_tag (Byte.to_N b) = None →
    malformed (b :: rest)
| payload_past_end (b : byte) (t : ValueType) (width : nat)
    (payload : list byte) :
    type_of_tag (Byte.to_N b) = Some t →
    payload_width t = Some width →
    (length payload < width)%nat →
    malformed (b :: payload)
| length_prefix_past_end (b : byte) (t : ValueType) (width : nat)
    (payload : list byte) :
    type_of_tag (Byte.to_N b) = Some t →
    length_prefix_width t = Some width →
    (length payload < width)%nat →
    malformed (b :: payload)
| length_past_end (b : byte) (t : ValueType) (width : nat)
    (prefix payload : list byte) :
    type_of_tag (Byte.to_N b) = Some t →
    length_prefix_width t = Some width →
    length prefix = width →
    N.of_nat (length payload) < parse_uint prefix →
    malformed (b :: prefix ++ payload)
| count_prefix_past_end (b : byte) (t : ValueType) (payload : list byte) :
    type_of_tag (Byte.to_N b) = Some t →
    is_Some (entry_min_size t) →
    (length payload < 4)%nat →
    malformed (b :: payload)
| entries_past_end (b : byte) (t : ValueType) (prefix input : list byte) :
    type_of_tag (Byte.to_N b) = Some t →
    is_Some (entry_min_size t) →
    length prefix = 4%nat →
    malformed_entries t (parse_uint prefix) input →
    malformed (b :: prefix ++ input)
with malformed_entries : ValueType → N → list byte → Prop :=
| key_cut_short (t : ValueType) (count : N) (input : list byte) :
    count ≠ 0 →
    key_past_end t input →
    malformed_entries t count input
| child_malformed (t : ValueType) (count : N) (input input1 : list byte) :
    count ≠ 0 →
    key_complete t input input1 →
    malformed input1 →
    malformed_entries t count input
| later_entry_malformed (t : ValueType) (count : N)
    (input input1 input2 : list byte) :
    count ≠ 0 →
    key_complete t input input1 →
    well_formed input1 input2 →
    malformed_entries t (N.pred count) input2 →
    malformed_entries t count input.

(** ** Nodes and buffers the properties are tried on *)

(** [[Value("hi"), Value(uint8_t(5))]] *)
Definition example_array : Value :=
  Value_vector [Value_string "hi"; Value_uint8 5].

Definition example_object : Value :=
  Value_map {[ 2 := Value_uint8 1; 300 := example_array;
               70000 := Value_Type NONE ]}.

Definition example_dictionary : Value :=
  set_dictionaryValue
    {[ "a"%string := Value_uint16 300;
       "ab"%string := Value_bytes [x01; x02];
       "b"%string := example_object ]}
    (Value_Type DICTIONARY).

(** [Value v(uint16_t(300)); v = Type::INT8;] *)
Definition retagged_300 : Value := set_type INT8 (Value_uint16 300).

(** [Value v; v.append(Value(uint8_t(5)));] *)
Definition untagged_with_element : Value :=
  set_arrayValue [Value_uint8 5] Value_default.

(** A key of 65536 bytes, and a dictionary that holds it:
    [Value d(Type::DICTIONARY); d[std::string(65536, 'a')] = Value(uint8_t(1));] *)
Definition long_key : string :=
  string_of_list_byte (repeat x61 (N.to_nat 65536)).

Definition long_key_dictionary : Value :=
  set_dictionaryValue {[ long_key := Value_uint8 1 ]} (Value_Type DICTIONARY).

(** A STRING tag, a length prefix of 100, and 10 bytes. *)
Definition truncated_string_buffer : list byte :=
  byte_of_N (tag_of_type STRING) :: write_uint 2 100 ++ repeat x01 10.

(** An ARRAY tag, a count of 2, and one element only. *)
Definition truncated_array_buffer : list byte :=
  byte_of_N (tag_of_type ARRAY) :: write_uint 4 2
  ++ [byte_of_N (tag_of_type INT8); x05].

(** A DICTIONARY tag, a count of 1, a key length prefix of 100, and 10
    bytes. *)
Definition truncated_key_buffer : list byte :=
  byte_of_N (tag_of_type DICTIONARY) :: write_uint 4 1
  ++ write_uint 2 100 ++ repeat x01 10.

(** An ARRAY of one element, the truncated STRING above. *)
Definition nested_truncated_string_buffer : list byte :=
  byte_of_N (tag_of_type ARRAY) :: write_uint 4 1 ++ truncated_string_buffer.

(** An OBJECT of one entry under key 7, whose node opens with byte 255,
    which is no tag. *)
Definition nested_unrecognized_tag_buffer : list byte :=
  byte_of_N (tag_of_type OBJECT) :: write_uint 4 1
  ++ write_uint 4 7 ++ [xff; x00].

(** ** What callers do with the interface *)

(** [v[key] = x;] and [*it = x;]: the implicitly-defined copy assignment
    through a reference that a mutable indexer returned replaces the
    element the reference denotes, and nothing else of the node. *)
Definition store (r : reference) (x : Value) (v : Value) : Value :=
  match r with
  | ObjectElement key => set_objectValue (<[key := x]> (objectValue v)) v
  | ArrayElement index =>
      set_arrayValue (<[N.to_nat index := x]> (arrayValue v)) v
  | DictionaryElement key =>
      set_dictionaryValue (<[key := x]> (dictionaryValue v)) v
  end.

(** [for (const Value& node : nodes) v.append(node);] *)
Fixpoint append_each (nodes : list Value) : method () :=
  match nodes with
  | [] => method_ret ()
  | node :: nodes' => (append node;; append_each nodes')%method
  end.

(** The unsigned and the signed accessor of each width. *)
Definition asUInt (w : uint_width) : method N :=
  match w with
  | U8 => asUInt8
  | U16 => asUInt16
  | U32 => asUInt32
  | U64 => asUInt64
  end.

Definition asInt (w : uint_width) : method Z :=
  match w with
  | U8 => asInt8
  | U16 => asInt16
  | U32 => asInt32
  | U64 => asInt64
  end.

(** The width an integer tag names. *)
Definition tag_width (t : ValueType) : option uint_width :=
  match t with
  | INT8 => Some U8
  | INT16 => Some U16
  | INT32 => Some U32
  | INT64 => Some U64
  | _ => None
  end.

(** The element an integer key denotes in a node: a map entry of an OBJECT,
    a position of the array payload otherwise. *)
Definition element_reference (this : Value) (key : N) : reference :=
  if bool_decide (type this = OBJECT) then ObjectElement key
  else ArrayElement key.

(** The payload members of a node, and two nodes that agree on the tag's
    companions: every payload member but the one named. *)
Inductive payload_member : Type :=
| IntMember
| DoubleMember
| StringMember
| ByteArrayMember
| ObjectMember
| ArrayMember
| DictionaryMember.

Definition other_members_kept (touched : payload_member) (v v' : Value)
    : Prop :=
  (touched ≠ IntMember → intValue v' = intValue v)
  ∧ (touched ≠ DoubleMember → doubleValue v' = doubleValue v)
  ∧ (touched ≠ StringMember → stringValue v' = stringValue v)
  ∧ (touched ≠ ByteArrayMember → byteArrayValue v' = byteArrayValue v)
  ∧ (touched ≠ ObjectMember → objectValue v' = objectValue v)
  ∧ (touched ≠ ArrayMember → arrayValue v' = arrayValue v)
  ∧ (touched ≠ DictionaryMember → dictionaryValue v' = dictionaryValue v).

(** * Properties *)

Ltac run_method :=
  unfold as_integer, assert_, method_bind, method_ret, get_this, put_this,
    modify_this, undefined; simpl.

(** *** Construction and assignment *)

Lemma Value_uint_narrowest (w : uint_width) (m : N) :
  m < 2 ^ width_bits w →
  intValue (Value_uint w m) = m ∧ narrowest_tag_law m (type (Value_uint w m)).
Proof.
  intros Hm. unfold narrowest_tag_law.
  destruct w; simpl in Hm; simpl;
    unfold Value_uint8, Value_uint16, Value_uint32, Value_uint64,
      uint8_max, uint16_max, uint32_max; simpl;
    repeat case_bool_decide; simpl; (split; [reflexivity |]);
    repeat split; intros; try discriminate; try lia.
Qed.

Lemma assign_uint_narrowest (w : uint_width) (m : N) (this : Value) :
  m < 2 ^ width_bits w →
  ∃ this', assign_uint w m this = Returns ((), this')
    ∧ intValue this' = m ∧ narrowest_tag_law m (type this').
Proof.
  intros Hm. unfold narrowest_tag_law.
  destruct w; simpl in Hm; simpl;
    unfold assign_uint8, assign_uint16, assign_uint32, assign_uint64,
      uint8_max, uint16_max, uint32_max; run_method;
    repeat case_bool_decide; simpl;
    (eexists; split; [reflexivity |]); simpl; (split; [reflexivity |]);
    repeat split; intros; try discriminate; try lia.
Qed.

(** C3. An unsigned magnitude [m] of any of the four unsigned widths, given
    to the constructor or to the assignment operator of that width, yields
    tag INT8 iff [m ≤ 255], INT16 iff [255 < m ≤ 65535], INT32 iff
    [65535 < m ≤ 4294967295] and INT64 otherwise; assigning a magnitude
    that fits 32 bits to a node tagged INT64 leaves it with a narrower
    tag. *)
Theorem tag_narrowing (w : uint_width) (m : N) (this : Value) :
  m < 2 ^ width_bits w →
  (intValue (Value_uint w m) = m
   ∧ narrowest_tag_law m (type (Value_uint w m)))
  ∧ ∃ this', assign_uint w m this = Returns ((), this')
      ∧ intValue this' = m
      ∧ narrowest_tag_law m (type this')
      ∧ (type this = INT64 → m ≤ uint32_max → type this' ≠ INT64).
Proof.
  intros Hm. split; [by apply Value_uint_narrowest |].
  destruct (assign_uint_narrowest w m this Hm) as (this' & Hrun & Hint & Hlaw).
  exists this'. repeat split; try apply Hlaw; try done.
  intros _ Hsmall Htag. apply Hlaw in Htag. unfold uint32_max in Hsmall. lia.
Qed.

(** C4. Constructing or assigning from a string [s] stores [s] and tags the
    node STRING iff [s] has at most 65535 bytes, LONG_STRING otherwise,
    whatever the bytes are. *)
Theorem string_tag (s : string) (this : Value) :
  (stringValue (Value_string s) = s
   ∧ string_tag_law s (type (Value_string s)))
  ∧ ∃ this', assign_string s this = Returns ((), this')
      ∧ stringValue this' = s
      ∧ string_tag_law s (type this').
Proof.
  unfold string_tag_law, Value_string, assign_string, uint16_max. run_method.
  split.
  - case_bool_decide; simpl; (split; [reflexivity |]);
      repeat split; intros; try discriminate; try lia.
  - case_bool_decide; simpl; (eexists; split; [reflexivity |]); simpl;
      (split; [reflexivity |]); repeat split; intros; try discriminate; try lia.
Qed.

(** C9. [operator=(Type)] changes the tag and nothing else: every payload
    member keeps its contents, so a node re-tagged ARRAY exposes the array
    payload it already held. *)
Theorem assign_Type_frame (newType : ValueType) (this : Value) :
  assign_Type newType this = Returns ((), set_type newType this)
  ∧ type (set_type newType this) = newType
  ∧ intValue (set_type newType this) = intValue this
  ∧ doubleValue (set_type newType this) = doubleValue this
  ∧ stringValue (set_type newType this) = stringValue this
  ∧ byteArrayValue (set_type newType this) = byteArrayValue this
  ∧ objectValue (set_type newType this) = objectValue this
  ∧ arrayValue (set_type newType this) = arrayValue this
  ∧ dictionaryValue (set_type newType this) = dictionaryValue this
  ∧ method_bind (assign_Type ARRAY) (λ _, asVector) this
    = Returns (arrayValue this, set_type ARRAY this).
Proof.
  repeat split. unfold assign_Type, asVector. run_method.
  by rewrite orb_true_r.
Qed.

(** C10. A node constructed from a container tag alone is an empty
    container: [getSize()] is 0 for ARRAY, [hasElement] is false for every
    integer key of an OBJECT or ARRAY and every string key of a
    DICTIONARY. *)
Theorem container_tag_constructs_empty :
  getSize (Value_Type ARRAY) = Returns (0, Value_Type ARRAY)
  ∧ (∀ key : N,
       hasElement_uint32 key (Value_Type OBJECT)
       = Returns (false, Value_Type OBJECT))
  ∧ (∀ key : N,
       hasElement_uint32 key (Value_Type ARRAY)
       = Returns (false, Value_Type ARRAY))
  ∧ (∀ key : string,
       hasElement_string key (Value_Type DICTIONARY)
       = Returns (false, Value_Type DICTIONARY)).
Proof.
  unfold getSize, hasElement_uint32, hasElement_string. run_method.
  rewrite !orb_true_r. repeat split.
  intros key. case_bool_decide; [lia | reflexivity].
Qed.

(** *** Reading *)

(** C5. Reading an absent key of an OBJECT or of a DICTIONARY, or an index
    at or past the end of an ARRAY, through the [const] indexer returns a
    default-constructed node, tagged NONE, and the container is the same
    after the call. *)
Theorem container_read_safety (this : Value) (read : method Value) :
  reads_nothing this read →
  read this = Returns (Value_default, this) ∧ type Value_default = NONE.
Proof.
  intros Hread. split; [| reflexivity].
  destruct Hread as [key Htag Habsent | key Htag Habsent | index Htag Hrange];
    unfold subscript_uint32_const, subscript_string_const; run_method;
    rewrite Htag; simpl; rewrite ?orb_true_r; simpl.
  - by rewrite Habsent.
  - by rewrite Habsent.
  - case_bool_decide; [lia | reflexivity].
Qed.

Lemma static_cast_signed_reinterprets (w : N) (m : N) :
  0 < w → reinterprets w m (static_cast_signed w m).
Proof.
  intros Hw. unfold reinterprets, static_cast_signed.
  assert (Hpow : 2 ^ w = 2 * 2 ^ (w - 1)).
  { rewrite <- N.pow_succ_r'. f_equal. lia. }
  assert (Hpos : 0 < 2 ^ (w - 1)) by (apply N.neq_0_lt_0, N.pow_nonzero; lia).
  assert (Hlt : m mod 2 ^ w < 2 ^ w) by (apply N.mod_lt; lia).
  assert (HZ : (2 ^ Z.of_N w = Z.of_N (2 ^ w))%Z) by (rewrite N2Z.inj_pow; done).
  assert (HZ' : (2 ^ (Z.of_N w - 1) = Z.of_N (2 ^ (w - 1)))%Z).
  { rewrite N2Z.inj_pow. f_equal. lia. }
  rewrite HZ, HZ'. set (r := m mod 2 ^ w) in *. clearbody r.
  destruct (N.ltb_spec r (2 ^ (w - 1))) as [Hsmall | Hbig].
  - split; [lia |]. apply Z.mod_small. lia.
  - split; [lia |].
    rewrite <- (Z.mod_unique (Z.of_N r - Z.of_N (2 ^ w)) (Z.of_N (2 ^ w))
                             (-1) (Z.of_N r)); [reflexivity | left; lia | lia].
Qed.

(** C8. On a node holding an integer (tag INT8, INT16, INT32 or INT64) of
    stored magnitude [m], [asUInt64] returns [m], every narrower unsigned
    accessor returns [m] modulo [2^N] for its width [N], and every signed
    accessor returns the two's complement reading of those low [N] bits,
    whichever of the four tags is active. *)
Theorem integer_accessors (this : Value) (m : N) :
  is_integer_type (type this) = true →
  intValue this = m →
  asUInt64 this = Returns (m, this)
  ∧ asUInt32 this = Returns (m mod 2 ^ 32, this)
  ∧ asUInt16 this = Returns (m mod 2 ^ 16, this)
  ∧ asUInt8 this = Returns (m mod 2 ^ 8, this)
  ∧ (∃ r, asInt64 this = Returns (r, this) ∧ reinterprets 64 m r)
  ∧ (∃ r, asInt32 this = Returns (r, this) ∧ reinterprets 32 m r)
  ∧ (∃ r, asInt16 this = Returns (r, this) ∧ reinterprets 16 m r)
  ∧ (∃ r, asInt8 this = Returns (r, this) ∧ reinterprets 8 m r).
Proof.
  intros Htag Hm.
  unfold asUInt64, asUInt32, asUInt16, asUInt8, asInt64, asInt32, asInt16,
    asInt8. run_method. rewrite Htag, Hm, orb_true_r.
  repeat split; try reflexivity;
    (eexists; split; [reflexivity | apply static_cast_signed_reinterprets; lia]).
Qed.

(** *** Indexing for writing, appending *)

(** C6 (as the code has it). With assertions compiled out and an index
    inside the array payload, the mutable integer indexer on a node tagged
    neither ARRAY nor OBJECT re-tags the node ARRAY and returns a reference
    to the element of the array payload at that index; with assertions
    compiled in, the same call stops at the assertion. *)
Theorem mutable_index_coerces_to_array (this : Value) (key : N) :
  type this ≠ ARRAY →
  type this ≠ OBJECT →
  key < N.of_nat (length (arrayValue this)) →
  (NDEBUG = true →
   subscript_uint32 key this = Returns (ArrayElement key, set_type ARRAY this)
   ∧ type (set_type ARRAY this) = ARRAY
   ∧ deref (ArrayElement key) (set_type ARRAY this)
     = arrayValue this !! N.to_nat key
   ∧ is_Some (arrayValue this !! N.to_nat key))
  ∧ (NDEBUG = false → subscript_uint32 key this = AssertionFailed).
Proof.
  intros Harray Hobject Hrange.
  unfold subscript_uint32. run_method.
  rewrite !bool_decide_eq_false_2 by done. simpl.
  split; intros ->; simpl; [| reflexivity].
  rewrite bool_decide_eq_true_2 by done.
  repeat split. apply lookup_lt_is_Some. lia.
Qed.

(** [append] carries no assertion: on any node, whatever its tag and in
    either build, it pushes onto the array payload and returns, and the tag
    stays as it was. *)
Lemma append_pushes_whatever_the_tag (node this : Value) :
  append node this
  = Returns ((), set_arrayValue (arrayValue this ++ [node]) this)
  ∧ type (set_arrayValue (arrayValue this ++ [node]) this) = type this.
Proof. split; reflexivity. Qed.

(** *** Bytes and fixed-width integers on the wire *)

Lemma byte_of_N_to_N (n : N) : Byte.to_N (byte_of_N n) = n mod 256.
Proof.
  unfold byte_of_N. destruct (Byte.of_N (n mod 256)) as [b |] eqn:Hb; simpl.
  - by apply Byte.to_of_N.
  - apply Byte.of_N_None_iff in Hb.
    pose proof (N.mod_lt n 256). lia.
Qed.

Lemma byte_of_to_N (b : byte) : byte_of_N (Byte.to_N b) = b.
Proof.
  unfold byte_of_N. rewrite N.mod_small.
  - by rewrite Byte.of_to_N.
  - pose proof (Byte.to_N_bounded b). lia.
Qed.

Lemma length_uint_to_le (width : nat) (n : N) :
  length (uint_to_le width n) = width.
Proof. revert n. induction width; intros n; simpl; [done | by rewrite IHwidth]. Qed.

Lemma le_to_uint_to_le (width : nat) (n : N) :
  le_to_uint (uint_to_le width n) = n mod 256 ^ N.of_nat width.
Proof.
  revert n. induction width as [| width IH]; intros n.
  - simpl. by rewrite N.mod_1_r.
  - cbn [uint_to_le le_to_uint]. rewrite byte_of_N_to_N, IH.
    rewrite Nat2N.inj_succ, N.pow_succ_r'.
    by rewrite N.Div0.mod_mul_r.
Qed.

Lemma le_to_uint_bound (bytes : list byte) :
  le_to_uint bytes < 256 ^ N.of_nat (length bytes).
Proof.
  induction bytes as [| b bytes IH].
  - simpl. lia.
  - cbn [le_to_uint length]. rewrite Nat2N.inj_succ, N.pow_succ_r'.
    pose proof (Byte.to_N_bounded b). lia.
Qed.

Lemma length_write_uint (width : nat) (n : N) :
  length (write_uint width n) = width.
Proof.
  unfold write_uint. destruct big_endian;
    by rewrite ?length_rev, length_uint_to_le.
Qed.

Lemma parse_write_uint (width : nat) (n : N) :
  parse_uint (write_uint width n) = n mod 256 ^ N.of_nat width.
Proof.
  unfold parse_uint, write_uint. destruct big_endian;
    by rewrite ?rev_involutive, le_to_uint_to_le.
Qed.

Lemma parse_uint_bound (bytes : list byte) :
  parse_uint bytes < 256 ^ N.of_nat (length bytes).
Proof.
  unfold parse_uint. destruct big_endian.
  - rewrite <- (length_rev bytes). apply le_to_uint_bound.
  - apply le_to_uint_bound.
Qed.

Lemma write_uint_1 (n : N) : write_uint 1 n = [byte_of_N n].
Proof. unfold write_uint. by destruct big_endian. Qed.

Lemma type_of_tag_of_type (t : ValueType) :
  type_of_tag (tag_of_type t mod 256) = Some t.
Proof. by destruct t. Qed.

Lemma read_bytes_app (bytes rest : list byte) :
  read_bytes (N.of_nat (length bytes)) (bytes ++ rest) = Decoded (bytes, rest).
Proof.
  unfold read_bytes. rewrite bool_decide_eq_true_2.
  - by rewrite Nat2N.id, take_app_length, drop_app_length.
  - rewrite length_app. lia.
Qed.

Lemma read_uint_write (width : nat) (n : N) (rest : list byte) :
  read_uint width (write_uint width n ++ rest)
  = Decoded (n mod 256 ^ N.of_nat width, rest).
Proof.
  unfold read_uint.
  rewrite <- (length_write_uint width n) at 1.
  rewrite read_bytes_app. simpl. by rewrite parse_write_uint.
Qed.

Lemma pow256_1 : 256 ^ N.of_nat 1 = 256.
Proof. by vm_compute. Qed.

Lemma pow256_2 : 256 ^ N.of_nat 2 = 65536.
Proof. by vm_compute. Qed.

Lemma pow256_4 : 256 ^ N.of_nat 4 = 4294967296.
Proof. by vm_compute. Qed.

Lemma pow256_8 : 256 ^ N.of_nat 8 = 18446744073709551616.
Proof. by vm_compute. Qed.

Lemma pow2_64 : 2 ^ 64 = 18446744073709551616.
Proof. by vm_compute. Qed.

Lemma uint_max_values :
  uint8_max = 255 ∧ uint16_max = 65535 ∧ uint32_max = 4294967295.
Proof. done. Qed.

Ltac fits_width :=
  pose proof uint_max_values as (? & ? & ?);
  pose proof pow2_64;
  rewrite ?pow256_1, ?pow256_2, ?pow256_4, ?pow256_8; lia.

Lemma read_uint_write_fits (width : nat) (n : N) (rest : list byte) :
  n < 256 ^ N.of_nat width →
  read_uint width (write_uint width n ++ rest) = Decoded (n, rest).
Proof. intros Hn. by rewrite read_uint_write, N.mod_small. Qed.

Lemma read_tag_byte (t : ValueType) (rest : list byte) :
  read_uint 1 (byte_of_N (tag_of_type t) :: rest)
  = Decoded (tag_of_type t mod 256, rest).
Proof.
  change (byte_of_N (tag_of_type t) :: rest)
    with ([byte_of_N (tag_of_type t)] ++ rest).
  rewrite <- write_uint_1. rewrite read_uint_write. by destruct t.
Qed.

Lemma length_list_byte_of_string (s : string) :
  length (list_byte_of_string s) = String.length s.
Proof.
  unfold list_byte_of_string. rewrite length_map.
  induction s as [| c s IH]; simpl; [done | by rewrite IH].
Qed.

Lemma length_string_of_list_byte (bytes : list byte) :
  String.length (string_of_list_byte bytes) = length bytes.
Proof.
  by rewrite <- length_list_byte_of_string, list_byte_of_string_of_list_byte.
Qed.

Lemma read_key_write (key : string) (rest : list byte) :
  N.of_nat (String.length key) ≤ uint16_max →
  read_key (write_key key ++ rest) = Decoded (key, rest).
Proof.
  intros Hlen. unfold read_key, write_key.
  rewrite <- app_assoc, read_uint_write_fits by fits_width. simpl.
  rewrite <- length_list_byte_of_string, read_bytes_app. simpl.
  by rewrite string_of_list_byte_of_string.
Qed.

(** *** Maps as entry lists *)

Lemma entries_by_fmap {K} `{Countable K} {A B} (le : K → K → bool)
    (f : A → B) (m : gmap K A) :
  ∃ L, L ≡ₚ map_to_list m ∧ entries_by le (f <$> m) = prod_map id f <$> L.
Proof.
  unfold entries_by.
  pose proof (merge_sort_Permutation (key_le le) (map_to_list (f <$> m)))
    as Hperm.
  rewrite map_to_list_fmap in Hperm.
  apply Permutation_map_inv in Hperm as (L & Heq & HL).
  exists L. split; [by symmetry |].
  by rewrite map_to_list_fmap.
Qed.

Lemma foldl_insert_list_to_map {K} `{Countable K} {A B} (g : A → B)
    (L : list (K * A)) (acc : gmap K B) :
  NoDup L.*1 →
  foldl (λ a e, <[e.1 := g e.2]> a) acc L = (g <$> list_to_map L) ∪ acc.
Proof.
  revert acc. induction L as [| [k x] L IH]; intros acc Hnodup.
  - simpl. by rewrite fmap_empty, (left_id_L ∅ (∪)).
  - apply NoDup_cons in Hnodup as [Hk Hnodup]. simpl.
    rewrite IH by done. rewrite fmap_insert.
    rewrite <- insert_union_l.
    rewrite insert_union_r; [done |].
    rewrite lookup_fmap. by rewrite (not_elem_of_list_to_map_1 L k Hk).
Qed.

Lemma foldl_insert_entries {K} `{Countable K} {A B} (g : A → B)
    (m : gmap K A) (L : list (K * A)) :
  L ≡ₚ map_to_list m →
  foldl (λ a e, <[e.1 := g e.2]> a) (g <$> ∅) L = g <$> m.
Proof.
  intros HL.
  assert (Hnodup : NoDup L.*1).
  { rewrite HL. apply NoDup_fst_map_to_list. }
  rewrite foldl_insert_list_to_map by done.
  rewrite fmap_empty, (right_id_L ∅ (∪)).
  rewrite (list_to_map_proper L (map_to_list m)) by done.
  by rewrite list_to_map_to_list.
Qed.

Lemma length_concat_elem {A} (f : A → list byte) (l : list A) (x : A) :
  x ∈ l → (length (f x) ≤ length (concat (f <$> l)))%nat.
Proof.
  induction 1 as [x l | x y l Hin IH];
    rewrite fmap_cons; cbn [concat]; rewrite length_app; lia.
Qed.

Lemma wire_nonempty (v : Value) : (1 ≤ length (wire v))%nat.
Proof. destruct v; simpl; lia. Qed.

(** *** The container loops of the decoder *)

Lemma decode_array_S (fuel : nat) (count : N) (acc : list Value)
    (input : list byte) :
  decode_array (S fuel) count acc input
  = if bool_decide (count = 0) then Decoded (acc, input)
    else '(element, input) ← decode_value fuel Value_default input;
         decode_array fuel (N.pred count) (acc ++ [element]) input.
Proof. reflexivity. Qed.

Lemma decode_object_S (fuel : nat) (count : N) (acc : gmap N Value)
    (input : list byte) :
  decode_object (S fuel) count acc input
  = if bool_decide (count = 0) then Decoded (acc, input)
    else '(key, input) ← read_uint 4 input;
         '(child, input) ← decode_value fuel Value_default input;
         decode_object fuel (N.pred count) (<[key := child]> acc) input.
Proof. reflexivity. Qed.

Lemma decode_dictionary_S (fuel : nat) (count : N) (acc : gmap string Value)
    (input : list byte) :
  decode_dictionary (S fuel) count acc input
  = if bool_decide (count = 0) then Decoded (acc, input)
    else '(key, input) ← read_key input;
         '(child, input) ← decode_value fuel Value_default input;
         decode_dictionary fuel (N.pred count) (<[key := child]> acc) input.
Proof. reflexivity. Qed.

Lemma count_succ_pred (n : nat) :
  bool_decide (N.of_nat (S n) = 0) = false ∧ N.pred (N.of_nat (S n)) = N.of_nat n.
Proof. split; [apply bool_decide_eq_false_2 |]; lia. Qed.

Lemma decode_array_wire (l : list Value) :
  Forall roundtrips l →
  ∀ (fuel : nat) (acc : list Value) (rest : list byte),
    (2 * length (concat (wire <$> l)) + 1 ≤ fuel)%nat →
    ∃ ws, decode_array fuel (N.of_nat (length l)) acc
            (concat (wire <$> l) ++ rest)
          = Decoded (acc ++ ws, rest)
          ∧ document <$> ws = document <$> l.
Proof.
  induction 1 as [| c l Hc Hl IH]; intros fuel acc rest Hfuel;
    (destruct fuel as [| fuel]; [lia |]); rewrite decode_array_S.
  - exists []. by rewrite (right_id_L [] (++)).
  - cbn [length]. destruct (count_succ_pred (length l)) as [-> ->].
    rewrite fmap_cons in *. cbn [concat] in *.
    rewrite length_app in Hfuel. pose proof (wire_nonempty c).
    rewrite <- app_assoc.
    destruct (Hc fuel Value_default (concat (wire <$> l) ++ rest))
      as (w & -> & Hw); [lia |].
    simpl.
    destruct (IH fuel (acc ++ [w]) rest) as (ws & -> & Hws); [lia |].
    exists (w :: ws). rewrite <- app_assoc. split; [done |].
    by rewrite fmap_cons, Hw, Hws.
Qed.

Lemma decode_object_wire (L : list (N * Value)) :
  Forall (λ e, e.1 ≤ uint32_max ∧ roundtrips e.2) L →
  ∀ (fuel : nat) (acc : gmap N Value) (rest : list byte),
    (2 * length (concat ((λ entry, write_uint 4 entry.1 ++ entry.2)
                           <$> (prod_map id wire <$> L))) + 1 ≤ fuel)%nat →
    ∃ M, decode_object fuel (N.of_nat (length L)) acc
           (concat ((λ entry, write_uint 4 entry.1 ++ entry.2)
                      <$> (prod_map id wire <$> L)) ++ rest)
         = Decoded (M, rest)
         ∧ document <$> M
           = foldl (λ a e, <[e.1 := document e.2]> a) (document <$> acc) L.
Proof.
  induction 1 as [| [k c] L [Hk Hc] HL IH]; intros fuel acc rest Hfuel;
    (destruct fuel as [| fuel]; [lia |]); rewrite decode_object_S.
  - exists acc. done.
  - cbn [length]. destruct (count_succ_pred (length L)) as [-> ->].
    rewrite !fmap_cons in *. cbn [concat prod_map fst snd id] in *.
    rewrite !length_app, length_write_uint in Hfuel.
    rewrite <- !app_assoc.
    rewrite read_uint_write_fits by fits_width.
    simpl in Hc |- *.
    destruct (Hc fuel Value_default
                (concat ((λ entry, write_uint 4 entry.1 ++ entry.2)
                           <$> (prod_map id wire <$> L)) ++ rest))
      as (w & -> & Hw); [lia |].
    simpl.
    destruct (IH fuel (<[k := w]> acc) rest) as (M & -> & HM); [lia |].
    exists M. split; [done |].
    by rewrite HM, fmap_insert, Hw.
Qed.

Lemma decode_dictionary_wire (L : list (string * Value)) :
  Forall (λ e, N.of_nat (String.length e.1) ≤ uint16_max ∧ roundtrips e.2) L →
  ∀ (fuel : nat) (acc : gmap string Value) (rest : list byte),
    (2 * length (concat ((λ entry, write_key entry.1 ++ entry.2)
                           <$> (prod_map id wire <$> L))) + 1 ≤ fuel)%nat →
    ∃ M, decode_dictionary fuel (N.of_nat (length L)) acc
           (concat ((λ entry, write_key entry.1 ++ entry.2)
                      <$> (prod_map id wire <$> L)) ++ rest)
         = Decoded (M, rest)
         ∧ document <$> M
           = foldl (λ a e, <[e.1 := document e.2]> a) (document <$> acc) L.
Proof.
  induction 1 as [| [k c] L [Hk Hc] HL IH]; intros fuel acc rest Hfuel;
    (destruct fuel as [| fuel]; [lia |]); rewrite decode_dictionary_S.
  - exists acc. done.
  - cbn [length]. destruct (count_succ_pred (length L)) as [-> ->].
    rewrite !fmap_cons in *. cbn [concat prod_map fst snd id] in *.
    rewrite !length_app in Hfuel. pose proof (wire_nonempty c).
    rewrite <- !app_assoc.
    rewrite read_key_write by done.
    simpl in Hc |- *.
    destruct (Hc fuel Value_default
                (concat ((λ entry, write_key entry.1 ++ entry.2)
                           <$> (prod_map id wire <$> L)) ++ rest))
      as (w & -> & Hw); [lia |].
    simpl.
    destruct (IH fuel (<[k := w]> acc) rest) as (M & -> & HM); [lia |].
    exists M. split; [done |].
    by rewrite HM, fmap_insert, Hw.
Qed.

(** *** Round trip *)

Lemma forallb_entries {K A} (P : K → bool) (f : A → bool) (l : list (K * A)) :
  forallb (λ entry, P entry.1 && entry.2) (prod_map id f <$> l) = true →
  Forall (λ e, P e.1 = true ∧ f e.2 = true) l.
Proof.
  induction l as [| [k x] l IH]; [constructor |].
  rewrite fmap_cons. cbn [forallb prod_map fst snd id].
  intros [[HP Hf]%andb_prop Hl]%andb_prop. constructor; auto.
Qed.

Lemma wire_roundtrips_bounded (n : nat) :
  ∀ v, (length (wire v) ≤ n)%nat → representable v = true → roundtrips v.
Proof.
  induction n as [n IH] using lt_wf_ind.
  intros v Hn Hrep fuel this rest Hfuel.
  pose proof (wire_nonempty v) as Hnonempty.
  destruct fuel as [| fuel]; [lia |].
  destruct v as [t i d s b o a di].
  destruct t; cbn [wire representable type intValue doubleValue stringValue
                     byteArrayValue objectValue arrayValue dictionaryValue]
                in *;
    cbn [decode_value app]; rewrite read_tag_byte; simpl mbind.
  - (* NONE *)
    by eexists.
  - (* INT8 *)
    apply bool_decide_eq_true in Hrep.
    rewrite read_uint_write_fits by fits_width. by eexists.
  - (* INT16 *)
    apply bool_decide_eq_true in Hrep.
    rewrite read_uint_write_fits by fits_width. by eexists.
  - (* INT32 *)
    apply bool_decide_eq_true in Hrep.
    rewrite read_uint_write_fits by fits_width. by eexists.
  - (* INT64 *)
    apply bool_decide_eq_true in Hrep.
    rewrite read_uint_write_fits by fits_width. by eexists.
  - (* FLOAT *)
    apply andb_prop in Hrep as [Hfits%bool_decide_eq_true Hexact%bool_decide_eq_true].
    rewrite read_uint_write_fits by fits_width. simpl.
    eexists. split; [reflexivity |]. simpl. by rewrite Hexact.
  - (* DOUBLE *)
    apply bool_decide_eq_true in Hrep.
    rewrite read_uint_write_fits by fits_width. by eexists.
  - (* STRING *)
    apply bool_decide_eq_true in Hrep.
    rewrite <- app_assoc, read_uint_write_fits by fits_width. simpl.
    rewrite <- length_list_byte_of_string, read_bytes_app. simpl.
    eexists. split; [reflexivity |]. simpl.
    by rewrite string_of_list_byte_of_string.
  - (* LONG_STRING *)
    apply bool_decide_eq_true in Hrep.
    rewrite <- app_assoc, read_uint_write_fits by fits_width. simpl.
    rewrite <- length_list_byte_of_string, read_bytes_app. simpl.
    eexists. split; [reflexivity |]. simpl.
    by rewrite string_of_list_byte_of_string.
  - (* BYTE_ARRAY *)
    apply bool_decide_eq_true in Hrep.
    rewrite <- app_assoc, read_uint_write_fits by fits_width. simpl.
    rewrite read_bytes_app. by eexists.
  - (* OBJECT *)
    apply andb_prop in Hrep as [Hcount%bool_decide_eq_true Hentries].
    rewrite map_to_list_fmap in Hentries.
    pose proof (forallb_entries (λ k, bool_decide (k ≤ uint32_max))
                  representable (map_to_list o) Hentries) as Hall.
    clear Hentries. rename Hall into Hentries.
    destruct (entries_by_fmap N.leb wire o) as (L & HL & HwireL).
    rewrite HwireL in *. rewrite <- HL in Hentries.
    assert (Hsize : size o = length L)
      by (by rewrite <- (length_map_to_list o), HL).
    rewrite Hsize in *.
    cbn [length] in Hn, Hfuel. rewrite length_app, length_write_uint in Hn, Hfuel.
    rewrite <- app_assoc, read_uint_write_fits by fits_width. simpl.
    destruct (decode_object_wire L) with (fuel := fuel) (acc := (∅ : gmap N Value))
      (rest := rest) as (M & -> & HM); [| lia |].
    + apply Forall_forall. intros [k c] Hin.
      pose proof (proj1 (Forall_forall _ _) Hentries _ Hin) as [Hk Hc].
      apply bool_decide_eq_true in Hk. simpl in Hk, Hc. simpl. split; [done |].
      apply (IH (length (wire c))); [| done | done].
      pose proof (length_concat_elem
                    (λ e : N * Value, write_uint 4 e.1 ++ wire e.2) L (k, c) Hin)
        as Hle.
      rewrite <- list_fmap_compose in Hn. simpl in Hle.
      rewrite length_app in Hle. unfold compose in Hn. simpl in Hn. lia.
    + rewrite (foldl_insert_entries document o L HL) in HM.
      eexists. split; [reflexivity |].
      cbn [document type objectValue dictionaryValue set_objectValue
             set_dictionaryValue set_type].
      by rewrite HM.
  - (* ARRAY *)
    apply andb_prop in Hrep as [Hcount%bool_decide_eq_true Helements].
    cbn [length] in Hn, Hfuel. rewrite length_app, length_write_uint in Hn, Hfuel.
    rewrite <- app_assoc, read_uint_write_fits by fits_width. simpl.
    destruct (decode_array_wire a) with (fuel := fuel) (acc := @nil Value)
      (rest := rest) as (ws & -> & Hws); [| lia |].
    + apply Forall_forall. intros c Hin.
      apply (IH (length (wire c))); [| done |].
      * pose proof (length_concat_elem wire a c Hin). lia.
      * apply (proj1 (forallb_forall _ _) Helements).
        by apply list_elem_of_In.
    + simpl. eexists. split; [reflexivity |]. simpl. by rewrite Hws.
  - (* DICTIONARY *)
    apply andb_prop in Hrep as [Hcount%bool_decide_eq_true Hentries].
    rewrite map_to_list_fmap in Hentries.
    pose proof (forallb_entries
                  (λ k, bool_decide (N.of_nat (String.length k) ≤ uint16_max))
                  representable (map_to_list di) Hentries) as Hall.
    clear Hentries. rename Hall into Hentries.
    destruct (entries_by_fmap String.leb wire di) as (L & HL & HwireL).
    rewrite HwireL in *. rewrite <- HL in Hentries.
    assert (Hsize : size di = length L)
      by (by rewrite <- (length_map_to_list di), HL).
    rewrite Hsize in *.
    cbn [length] in Hn, Hfuel. rewrite length_app, length_write_uint in Hn, Hfuel.
    rewrite <- app_assoc, read_uint_write_fits by fits_width. simpl.
    destruct (decode_dictionary_wire L) with (fuel := fuel)
      (acc := (∅ : gmap string Value)) (rest := rest) as (M & -> & HM); [| lia |].
    + apply Forall_forall. intros [k c] Hin.
      pose proof (proj1 (Forall_forall _ _) Hentries _ Hin) as [Hk Hc].
      apply bool_decide_eq_true in Hk. simpl in Hk, Hc. simpl. split; [done |].
      apply (IH (length (wire c))); [| done | done].
      pose proof (length_concat_elem
                    (λ e : string * Value, write_key e.1 ++ wire e.2) L (k, c) Hin)
        as Hle.
      rewrite <- list_fmap_compose in Hn. simpl in Hle.
      rewrite length_app in Hle. unfold compose in Hn. simpl in Hn. lia.
    + rewrite (foldl_insert_entries document di L HL) in HM.
      eexists. split; [reflexivity |].
      cbn [document type objectValue dictionaryValue set_objectValue
             set_dictionaryValue set_type].
      by rewrite HM.
Qed.

Lemma wire_roundtrips (v : Value) : representable v = true → roundtrips v.
Proof. by apply (wire_roundtrips_bounded (length (wire v))). Qed.

(** C1 (as the wire format allows). For every node that fits the wire
    format, decoding the bytes that [encode] appended, at the offset where
    they start, succeeds, consumes exactly the bytes written and leaves a
    node structurally equal to the encoded one: same tag, same payload,
    same descendants. *)
Theorem decode_encode_roundtrip (v this : Value) (buffer tail : list byte) :
  representable v = true →
  ∃ w, decode ((encode buffer v).2 ++ tail) (N.of_nat (length buffer)) this
       = Decoded ((encode buffer v).1, w)
       ∧ document w = document v.
Proof.
  intros Hv. apply wire_roundtrips in Hv.
  unfold decode, encode. cbn [fst snd].
  rewrite Nat2N.id, <- app_assoc, drop_app_length.
  destruct (Hv (2 * length (wire v ++ tail) + 1)%nat this tail)
    as (w & -> & Hw); [rewrite length_app; lia |].
  exists w. split; [| done]. simpl.
  do 3 f_equal. rewrite length_app. lia.
Qed.

(** *** Malformed input *)

Lemma read_bytes_inv (n : N) (input bytes rest : list byte) :
  read_bytes n input = Decoded (bytes, rest) →
  input = bytes ++ rest ∧ N.of_nat (length bytes) = n.
Proof.
  unfold read_bytes. case_bool_decide as Hn; [| discriminate].
  intros [= <- <-]. split; [by rewrite take_drop |].
  rewrite length_take. lia.
Qed.

Lemma read_bytes_error (n : N) (input : list byte) (e : decode_error) :
  read_bytes n input = DecodeError e →
  e = OutOfBounds ∧ N.of_nat (length input) < n.
Proof.
  unfold read_bytes. case_bool_decide as Hn; [discriminate |].
  intros [= <-]. split; [done | lia].
Qed.

Lemma read_uint_inv (width : nat) (input : list byte) (n : N)
    (rest : list byte) :
  read_uint width input = Decoded (n, rest) →
  length input = (width + length rest)%nat ∧ n < 256 ^ N.of_nat width.
Proof.
  unfold read_uint.
  destruct (read_bytes (N.of_nat width) input) as [[bytes rest'] | e] eqn:Hread;
    [| discriminate].
  simpl. intros [= <- <-].
  apply read_bytes_inv in Hread as [-> Hlen]. apply Nat2N.inj in Hlen.
  split; [rewrite length_app; lia |].
  rewrite <- Hlen. apply parse_uint_bound.
Qed.

Lemma read_uint_error (width : nat) (input : list byte) (e : decode_error) :
  read_uint width input = DecodeError e → e = OutOfBounds.
Proof.
  unfold read_uint.
  destruct (read_bytes (N.of_nat width) input) as [[bytes rest'] | e'] eqn:Hread;
    [discriminate |].
  simpl. intros [= <-]. by apply read_bytes_error in Hread as [-> _].
Qed.

Lemma read_key_inv (input : list byte) (key : string) (rest : list byte) :
  read_key input = Decoded (key, rest) →
  (2 + length rest ≤ length input)%nat
  ∧ N.of_nat (String.length key) ≤ uint16_max.
Proof.
  unfold read_key.
  destruct (read_uint 2 input) as [[len input1] | e] eqn:Hlen; [| discriminate].
  simpl.
  destruct (read_bytes len input1) as [[bytes input2] | e] eqn:Hbytes;
    [| discriminate].
  simpl. intros [= <- <-].
  apply read_uint_inv in Hlen as [Hinput Hbound].
  apply read_bytes_inv in Hbytes as [-> Hbytes].
  rewrite length_app in Hinput. split; [lia |].
  rewrite length_string_of_list_byte. fits_width.
Qed.

Lemma read_key_error (input : list byte) (e : decode_error) :
  read_key input = DecodeError e → e = OutOfBounds.
Proof.
  unfold read_key.
  destruct (read_uint 2 input) as [[len input1] | e'] eqn:Hlen; simpl.
  - destruct (read_bytes len input1) as [[bytes input2] | e''] eqn:Hbytes;
      simpl; [discriminate |].
    intros [= <-]. by apply read_bytes_error in Hbytes as [-> _].
  - intros [= <-]. by apply read_uint_error in Hlen.
Qed.

(** One step through a decoder equation [H]: case on the next read or
    nested decoder call, keep what its success tells, close its failure. *)
Ltac decode_step H IHv IHa IHo IHd :=
  let E := fresh "E" in
  match type of H with
  | context [read_uint ?w ?i] =>
      destruct (read_uint w i) as [[? ?] | ?] eqn:E;
      cbn [mbind decoded_bind] in H;
      [apply read_uint_inv in E as [? ?]
      | apply read_uint_error in E; subst; try discriminate]
  | context [read_key ?i] =>
      destruct (read_key i) as [[? ?] | ?] eqn:E;
      cbn [mbind decoded_bind] in H;
      [apply read_key_inv in E as [? ?]
      | apply read_key_error in E; subst; try discriminate]
  | context [read_bytes ?n ?i] =>
      destruct (read_bytes n i) as [[? ?] | ?] eqn:E;
      cbn [mbind decoded_bind] in H;
      [apply read_bytes_inv in E as [? ?]
      | apply read_bytes_error in E as [? ?]; subst; try discriminate]
  | context [decode_value ?f ?t ?i] =>
      destruct (decode_value f t i) as [[? ?] | ?] eqn:E;
      cbn [mbind decoded_bind] in H;
      [try apply IHv in E | try discriminate]
  | context [decode_array ?f ?c ?a ?i] =>
      destruct (decode_array f c a i) as [[? ?] | ?] eqn:E;
      cbn [mbind decoded_bind] in H;
      [try apply IHa in E | try discriminate]
  | context [decode_object ?f ?c ?a ?i] =>
      destruct (decode_object f c a i) as [[? ?] | ?] eqn:E;
      cbn [mbind decoded_bind] in H;
      [try apply IHo in E | try discriminate]
  | context [decode_dictionary ?f ?c ?a ?i] =>
      destruct (decode_dictionary f c a i) as [[? ?] | ?] eqn:E;
      cbn [mbind decoded_bind] in H;
      [try apply IHd in E | try discriminate]
  end.

(** Every decoder call that succeeds has taken its bytes from the input:
    at least the tag byte for a node, at least the least entry size for
    each announced entry of a container. *)
Lemma decode_consumes (fuel : nat) :
  (∀ this input w rest,
     decode_value fuel this input = Decoded (w, rest) →
     (length rest + 1 ≤ length input)%nat)
  ∧ (∀ count acc input l rest,
       decode_array fuel count acc input = Decoded (l, rest) →
       N.of_nat (length rest) + count ≤ N.of_nat (length input))
  ∧ (∀ count acc input m rest,
       decode_object fuel count acc input = Decoded (m, rest) →
       N.of_nat (length rest) + 5 * count ≤ N.of_nat (length input))
  ∧ (∀ count acc input m rest,
       decode_dictionary fuel count acc input = Decoded (m, rest) →
       N.of_nat (length rest) + 3 * count ≤ N.of_nat (length input)).
Proof.
  induction fuel as [| fuel (IHv & IHa & IHo & IHd)];
    [by repeat split; intros |].
  split; [| split; [| split]].
  - intros this input w rest H. cbn [decode_value] in H.
    decode_step H IHv IHa IHo IHd.
    destruct (type_of_tag _) as [t |]; [| discriminate].
    destruct t; repeat decode_step H IHv IHa IHo IHd;
      injection H as <- <-; subst; rewrite ?length_app in *; lia.
  - intros count acc input l rest H. rewrite decode_array_S in H.
    case_bool_decide; [injection H as <- <-; lia |].
    decode_step H IHv IHa IHo IHd. apply IHa in H. lia.
  - intros count acc input m rest H. rewrite decode_object_S in H.
    case_bool_decide; [injection H as <- <-; lia |].
    do 2 decode_step H IHv IHa IHo IHd. apply IHo in H. lia.
  - intros count acc input m rest H. rewrite decode_dictionary_S in H.
    case_bool_decide; [injection H as <- <-; lia |].
    do 2 decode_step H IHv IHa IHo IHd. apply IHd in H. lia.
Qed.

(** The recursion bound of the model is never what stops a decoder: with
    fuel from twice the unread length on, a failure is a failure of the
    input. *)
Lemma decode_fuel_suffices (fuel : nat) :
  (∀ this input,
     (2 * length input + 1 ≤ fuel)%nat →
     decode_value fuel this input ≠ DecodeError FuelExhausted)
  ∧ (∀ count acc input,
       (2 * length input + 2 ≤ fuel)%nat →
       decode_array fuel count acc input ≠ DecodeError FuelExhausted)
  ∧ (∀ count acc input,
       (2 * length input + 2 ≤ fuel)%nat →
       decode_object fuel count acc input ≠ DecodeError FuelExhausted)
  ∧ (∀ count acc input,
       (2 * length input + 2 ≤ fuel)%nat →
       decode_dictionary fuel count acc input ≠ DecodeError FuelExhausted).
Proof.
  induction fuel as [| fuel (IHv & IHa & IHo & IHd)];
    [repeat split; intros; lia |].
  pose proof (decode_consumes fuel) as (Cv & _).
  split; [| split; [| split]].
  - intros this input Hfuel H. cbn [decode_value] in H.
    decode_step H Cv IHa IHo IHd.
    destruct (type_of_tag _) as [t |]; [| discriminate].
    destruct t; repeat decode_step H Cv IHa IHo IHd; try discriminate;
      match goal with
      | E : decode_array _ _ _ _ = DecodeError _ |- _ =>
          injection H as ->; revert E; apply IHa; lia
      | E : decode_object _ _ _ _ = DecodeError _ |- _ =>
          injection H as ->; revert E; apply IHo; lia
      | E : decode_dictionary _ _ _ _ = DecodeError _ |- _ =>
          injection H as ->; revert E; apply IHd; lia
      end.
  - intros count acc input Hfuel H. rewrite decode_array_S in H.
    case_bool_decide; [discriminate |].
    decode_step H Cv IHa IHo IHd.
    + revert H. apply IHa. lia.
    + injection H as ->.
      match goal with E : decode_value _ _ _ = _ |- _ => revert E end.
      apply IHv. lia.
  - intros count acc input Hfuel H. rewrite decode_object_S in H.
    case_bool_decide; [discriminate |].
    do 2 decode_step H Cv IHa IHo IHd.
    + revert H. apply IHo. lia.
    + injection H as ->.
      match goal with E : decode_value _ _ _ = _ |- _ => revert E end.
      apply IHv. lia.
  - intros count acc input Hfuel H. rewrite decode_dictionary_S in H.
    case_bool_decide; [discriminate |].
    do 2 decode_step H Cv IHa IHo IHd.
    + revert H. apply IHd. lia.
    + injection H as ->.
      match goal with E : decode_value _ _ _ = _ |- _ => revert E end.
      apply IHv. lia.
Qed.

Lemma decode_never_exhausts_fuel (buffer : list byte) (offset : N)
    (this : Value) :
  decode buffer offset this ≠ DecodeError FuelExhausted.
Proof.
  unfold decode.
  set (input := drop (N.to_nat offset) buffer).
  pose proof (decode_fuel_suffices (2 * length input + 1)) as (Hv & _).
  specialize (Hv this input (Nat.le_refl _)).
  destruct (decode_value _ this input) as [[w rest] | e]; simpl; congruence.
Qed.

(** A successful [decode] has read inside the buffer: the bytes it reports
    as consumed, counted from the offset, end at or before the end. *)
Lemma decode_within_buffer (buffer : list byte) (offset : N) (this : Value)
    (consumed : N) (w : Value) :
  decode buffer offset this = Decoded (consumed, w) →
  1 ≤ N.of_nat (length buffer) - offset
  ∧ (N.of_nat (length buffer) ≤ uint32_max →
     1 ≤ consumed ∧ offset + consumed ≤ N.of_nat (length buffer)).
Proof.
  unfold decode.
  set (input := drop (N.to_nat offset) buffer).
  assert (Hinput : N.of_nat (length input) = N.of_nat (length buffer) - offset)
    by (unfold input; rewrite length_drop; lia).
  destruct (decode_value _ this input) as [[w' rest] | e] eqn:Hdecode;
    [| discriminate].
  simpl. intros [= <- <-].
  apply (proj1 (decode_consumes _)) in Hdecode.
  split; [lia |]. intros Hsmall.
  unfold static_cast_unsigned. rewrite N.mod_small; [lia |].
  pose proof uint_max_values as (_ & _ & Hmax).
  change (2 ^ 32) with 4294967296. lia.
Qed.

Lemma read_uint_1_cons (b : byte) (rest : list byte) :
  read_uint 1 (b :: rest) = Decoded (Byte.to_N b, rest).
Proof.
  rewrite <- (byte_of_to_N b) at 1.
  change (byte_of_N (Byte.to_N b) :: rest)
    with ([byte_of_N (Byte.to_N b)] ++ rest).
  rewrite <- write_uint_1, read_uint_write_fits; [done |].
  pose proof (Byte.to_N_bounded b). fits_width.
Qed.

(** What the reads make of a whole and of a short input. *)

Lemma read_uint_complete (width : nat) (prefix rest : list byte) :
  length prefix = width →
  read_uint width (prefix ++ rest) = Decoded (parse_uint prefix, rest).
Proof. intros <-. unfold read_uint. by rewrite read_bytes_app. Qed.

Lemma read_bytes_complete (n : N) (bytes rest : list byte) :
  N.of_nat (length bytes) = n →
  read_bytes n (bytes ++ rest) = Decoded (bytes, rest).
Proof. intros <-. apply read_bytes_app. Qed.

Lemma read_bytes_past_end (n : N) (input : list byte) :
  N.of_nat (length input) < n →
  read_bytes n input = DecodeError OutOfBounds.
Proof. intros Hn. unfold read_bytes. by rewrite bool_decide_eq_false_2 by lia. Qed.

Lemma read_uint_past_end (width : nat) (input : list byte) :
  (length input < width)%nat →
  read_uint width input = DecodeError OutOfBounds.
Proof.
  intros Hn. unfold read_uint. by rewrite read_bytes_past_end by lia.
Qed.

Lemma read_uint_complete_inv (width : nat) (input : list byte) (n : N)
    (rest : list byte) :
  read_uint width input = Decoded (n, rest) →
  ∃ prefix, input = prefix ++ rest ∧ length prefix = width
            ∧ n = parse_uint prefix.
Proof.
  unfold read_uint.
  destruct (read_bytes (N.of_nat width) input) as [[bytes rest'] | e] eqn:Hread;
    [| discriminate].
  simpl. intros [= <- <-].
  apply read_bytes_inv in Hread as [-> Hlen]. apply Nat2N.inj in Hlen.
  by exists bytes.
Qed.

Lemma read_uint_past_end_inv (width : nat) (input : list byte)
    (e : decode_error) :
  read_uint width input = DecodeError e →
  e = OutOfBounds ∧ (length input < width)%nat.
Proof.
  unfold read_uint.
  destruct (read_bytes (N.of_nat width) input) as [[bytes rest'] | e'] eqn:Hread;
    [discriminate |].
  simpl. intros [= <-]. apply read_bytes_error in Hread as [-> Hlen].
  split; [done | lia].
Qed.

Lemma read_key_complete (input rest : list byte) :
  key_complete DICTIONARY input rest →
  ∃ key, read_key input = Decoded (key, rest).
Proof.
  inversion 1 as [| | prefix key rest' Hprefix Hkey]; subst.
  unfold read_key. rewrite read_uint_complete by done.
  cbn [mbind decoded_bind]. rewrite read_bytes_complete by done.
  by eexists.
Qed.

Lemma read_key_past_end (input : list byte) :
  key_past_end DICTIONARY input →
  read_key input = DecodeError OutOfBounds.
Proof.
  inversion 1 as [| input' Hshort | prefix payload Hprefix Hlen]; subst;
    unfold read_key.
  - by rewrite read_uint_past_end.
  - rewrite read_uint_complete by done. cbn [mbind decoded_bind].
    by rewrite read_bytes_past_end.
Qed.

Lemma read_key_complete_inv (input : list byte) (key : string)
    (rest : list byte) :
  read_key input = Decoded (key, rest) → key_complete DICTIONARY input rest.
Proof.
  unfold read_key.
  destruct (read_uint 2 input) as [[len input1] | e] eqn:Hlen; [| discriminate].
  cbn [mbind decoded_bind].
  destruct (read_bytes len input1) as [[bytes input2] | e] eqn:Hbytes;
    [| discriminate].
  cbn [mbind decoded_bind]. intros [= <- <-].
  apply read_uint_complete_inv in Hlen as (prefix & -> & Hprefix & ->).
  apply read_bytes_inv in Hbytes as [-> Hbytes].
  by constructor.
Qed.

Lemma read_key_past_end_inv (input : list byte) (e : decode_error) :
  read_key input = DecodeError e →
  e = OutOfBounds ∧ key_past_end DICTIONARY input.
Proof.
  unfold read_key.
  destruct (read_uint 2 input) as [[len input1] | e'] eqn:Hlen;
    cbn [mbind decoded_bind].
  - destruct (read_bytes len input1) as [[bytes input2] | e''] eqn:Hbytes;
      cbn [mbind decoded_bind]; [discriminate |].
    intros [= <-].
    apply read_uint_complete_inv in Hlen as (prefix & -> & Hprefix & ->).
    apply read_bytes_error in Hbytes as [-> Hbytes].
    split; [done | by constructor].
  - intros [= <-]. apply read_uint_past_end_inv in Hlen as [-> Hlen].
    split; [done | by constructor].
Qed.

Lemma not_container (t : ValueType) :
  is_Some (entry_min_size t) → t = OBJECT ∨ t = ARRAY ∨ t = DICTIONARY.
Proof. intros [size Hsize]. destruct t; try discriminate; auto. Qed.

(** *** The decoder and the grammar *)

(** [decode_value] accepts every well-formed input, and stops where the
    node ends. *)
Lemma well_formed_decodes (fuel : nat) :
  (∀ this input rest,
     well_formed input rest →
     (2 * length input + 1 ≤ fuel)%nat →
     ∃ w, decode_value fuel this input = Decoded (w, rest))
  ∧ (∀ count acc input rest,
       well_formed_entries ARRAY count input rest →
       (2 * length input + 2 ≤ fuel)%nat →
       ∃ l, decode_array fuel count acc input = Decoded (l, rest))
  ∧ (∀ count acc input rest,
       well_formed_entries OBJECT count input rest →
       (2 * length input + 2 ≤ fuel)%nat →
       ∃ m, decode_object fuel count acc input = Decoded (m, rest))
  ∧ (∀ count acc input rest,
       well_formed_entries DICTIONARY count input rest →
       (2 * length input + 2 ≤ fuel)%nat →
       ∃ m, decode_dictionary fuel count acc input = Decoded (m, rest)).
Proof.
  induction fuel as [| fuel (IHv & IHa & IHo & IHd)];
    [repeat split; intros; lia |].
  pose proof (decode_consumes fuel) as (Cv & _).
  split; [| split; [| split]].
  - intros this input rest H.
    destruct H as [b t width payload rest Htag Hwidth Hlen
                  | b t width prefix payload rest Htag Hwidth Hprefix Hlen
                  | b t prefix input rest Htag Hcontainer Hprefix Hentries];
      intros Hfuel; cbn [decode_value]; rewrite read_uint_1_cons;
      cbn [mbind decoded_bind]; rewrite Htag.
    + destruct t; try discriminate; injection Hwidth as <-.
      { destruct payload; [by eexists | discriminate]. }
      all: rewrite read_uint_complete by done; by eexists.
    + destruct t; try discriminate; injection Hwidth as <-;
        rewrite read_uint_complete by done; cbn [mbind decoded_bind];
        rewrite read_bytes_complete by done; by eexists.
    + cbn [length] in Hfuel. rewrite length_app in Hfuel.
      destruct (not_container t Hcontainer) as [-> | [-> | ->]];
        rewrite read_uint_complete by done; cbn [mbind decoded_bind].
      * destruct (IHo (parse_uint prefix) ∅ input rest Hentries) as [m ->];
          [lia | by eexists].
      * destruct (IHa (parse_uint prefix) [] input rest Hentries) as [l ->];
          [lia | by eexists].
      * destruct (IHd (parse_uint prefix) ∅ input rest Hentries) as [m ->];
          [lia | by eexists].
  - intros count acc input rest H Hfuel. rewrite decode_array_S.
    inversion H as [| t c i input1 input2 r Hcount Hkey Hchild Hrest]; subst;
      [by eexists |].
    rewrite bool_decide_eq_false_2 by done.
    inversion Hkey; subst.
    destruct (IHv Value_default _ _ Hchild) as [w Hw]; [lia |].
    rewrite Hw. cbn [mbind decoded_bind].
    apply Cv in Hw. apply IHa; [done | lia].
  - intros count acc input rest H Hfuel. rewrite decode_object_S.
    inversion H as [| t c i input1 input2 r Hcount Hkey Hchild Hrest]; subst;
      [by eexists |].
    rewrite bool_decide_eq_false_2 by done.
    inversion Hkey as [key rest' Hlen | |]; subst.
    rewrite read_uint_complete by done. cbn [mbind decoded_bind].
    rewrite length_app in Hfuel.
    destruct (IHv Value_default _ _ Hchild) as [w Hw]; [lia |].
    rewrite Hw. cbn [mbind decoded_bind].
    apply Cv in Hw. apply IHo; [done | lia].
  - intros count acc input rest H Hfuel. rewrite decode_dictionary_S.
    inversion H as [| t c i input1 input2 r Hcount Hkey Hchild Hrest]; subst;
      [by eexists |].
    rewrite bool_decide_eq_false_2 by done.
    destruct (read_key_complete _ _ Hkey) as [key Hread].
    rewrite Hread. cbn [mbind decoded_bind].
    apply read_key_inv in Hread as [Hshorter _].
    destruct (IHv Value_default _ _ Hchild) as [w Hw]; [lia |].
    rewrite Hw. cbn [mbind decoded_bind].
    apply Cv in Hw. apply IHd; [done | lia].
Qed.

(** [decode_value] rejects every malformed input, with one of the two
    errors of the format and never for want of fuel. *)
Lemma malformed_rejected (fuel : nat) :
  (∀ this input,
     malformed input →
     (2 * length input + 1 ≤ fuel)%nat →
     ∃ e, decode_value fuel this input = DecodeError e ∧ e ≠ FuelExhausted)
  ∧ (∀ count acc input,
       malformed_entries ARRAY count input →
       (2 * length input + 2 ≤ fuel)%nat →
       ∃ e, decode_array fuel count acc input = DecodeError e
            ∧ e ≠ FuelExhausted)
  ∧ (∀ count acc input,
       malformed_entries OBJECT count input →
       (2 * length input + 2 ≤ fuel)%nat →
       ∃ e, decode_object fuel count acc input = DecodeError e
            ∧ e ≠ FuelExhausted)
  ∧ (∀ count acc input,
       malformed_entries DICTIONARY count input →
       (2 * length input + 2 ≤ fuel)%nat →
       ∃ e, decode_dictionary fuel count acc input = DecodeError e
            ∧ e ≠ FuelExhausted).
Proof.
  induction fuel as [| fuel (IHv & IHa & IHo & IHd)];
    [repeat split; intros; lia |].
  pose proof (decode_consumes fuel) as (Cv & _).
  pose proof (well_formed_decodes fuel) as (Wv & _).
  split; [| split; [| split]].
  - intros this input H.
    destruct H as [| b rest Htag
                  | b t width payload Htag Hwidth Hlen
                  | b t width payload Htag Hwidth Hlen
                  | b t width prefix payload Htag Hwidth Hprefix Hlen
                  | b t payload Htag Hcontainer Hlen
                  | b t prefix input Htag Hcontainer Hprefix Hentries];
      intros Hfuel; cbn [decode_value].
    + rewrite read_uint_past_end by (simpl; lia). by eexists.
    + rewrite read_uint_1_cons. cbn [mbind decoded_bind]. rewrite Htag.
      by eexists.
    + rewrite read_uint_1_cons. cbn [mbind decoded_bind]. rewrite Htag.
      destruct t; try discriminate; injection Hwidth as <-; [lia | ..];
        rewrite read_uint_past_end by done; by eexists.
    + rewrite read_uint_1_cons. cbn [mbind decoded_bind]. rewrite Htag.
      destruct t; try discriminate; injection Hwidth as <-;
        rewrite read_uint_past_end by done; by eexists.
    + rewrite read_uint_1_cons. cbn [mbind decoded_bind]. rewrite Htag.
      destruct t; try discriminate; injection Hwidth as <-;
        rewrite read_uint_complete by done; cbn [mbind decoded_bind];
        rewrite read_bytes_past_end by done; by eexists.
    + rewrite read_uint_1_cons. cbn [mbind decoded_bind]. rewrite Htag.
      destruct (not_container t Hcontainer) as [-> | [-> | ->]];
        rewrite read_uint_past_end by done; by eexists.
    + rewrite read_uint_1_cons. cbn [mbind decoded_bind]. rewrite Htag.
      cbn [length] in Hfuel. rewrite length_app in Hfuel.
      destruct (not_container t Hcontainer) as [-> | [-> | ->]];
        rewrite read_uint_complete by done; cbn [mbind decoded_bind].
      * destruct (IHo (parse_uint prefix) ∅ input Hentries) as (e & -> & He);
          [lia | by exists e].
      * destruct (IHa (parse_uint prefix) [] input Hentries) as (e & -> & He);
          [lia | by exists e].
      * destruct (IHd (parse_uint prefix) ∅ input Hentries) as (e & -> & He);
          [lia | by exists e].
  - intros count acc input H Hfuel. rewrite decode_array_S.
    inversion H as [t c i Hcount Hkey
                   | t c i input1 Hcount Hkey Hchild
                   | t c i input1 input2 Hcount Hkey Hchild Hrest]; subst;
      rewrite bool_decide_eq_false_2 by done.
    + inversion Hkey.
    + inversion Hkey; subst.
      destruct (IHv Value_default _ Hchild) as (e & -> & He); [lia |].
      by exists e.
    + inversion Hkey; subst.
      destruct (Wv Value_default _ _ Hchild) as [w Hw]; [lia |].
      rewrite Hw. cbn [mbind decoded_bind].
      apply Cv in Hw. apply IHa; [done | lia].
  - intros count acc input H Hfuel. rewrite decode_object_S.
    inversion H as [t c i Hcount Hkey
                   | t c i input1 Hcount Hkey Hchild
                   | t c i input1 input2 Hcount Hkey Hchild Hrest]; subst;
      rewrite bool_decide_eq_false_2 by done.
    + inversion Hkey; subst. rewrite read_uint_past_end by done. by eexists.
    + inversion Hkey as [key rest' Hlen | |]; subst.
      rewrite read_uint_complete by done. cbn [mbind decoded_bind].
      rewrite length_app in Hfuel.
      destruct (IHv Value_default _ Hchild) as (e & -> & He); [lia |].
      by exists e.
    + inversion Hkey as [key rest' Hlen | |]; subst.
      rewrite read_uint_complete by done. cbn [mbind decoded_bind].
      rewrite length_app in Hfuel.
      destruct (Wv Value_default _ _ Hchild) as [w Hw]; [lia |].
      rewrite Hw. cbn [mbind decoded_bind].
      apply Cv in Hw. apply IHo; [done | lia].
  - intros count acc input H Hfuel. rewrite decode_dictionary_S.
    inversion H as [t c i Hcount Hkey
                   | t c i input1 Hcount Hkey Hchild
                   | t c i input1 input2 Hcount Hkey Hchild Hrest]; subst;
      rewrite bool_decide_eq_false_2 by done.
    + rewrite read_key_past_end by done. by eexists.
    + destruct (read_key_complete _ _ Hkey) as [key Hread].
      rewrite Hread. cbn [mbind decoded_bind].
      apply read_key_inv in Hread as [Hshorter _].
      destruct (IHv Value_default _ Hchild) as (e & -> & He); [lia |].
      by exists e.
    + destruct (read_key_complete _ _ Hkey) as [key Hread].
      rewrite Hread. cbn [mbind decoded_bind].
      apply read_key_inv in Hread as [Hshorter _].
      destruct (Wv Value_default _ _ Hchild) as [w Hw]; [lia |].
      rewrite Hw. cbn [mbind decoded_bind].
      apply Cv in Hw. apply IHd; [done | lia].
Qed.

(** C2. When the buffer, from the given offset on, holds a byte that is no
    tag where a tag is read, or a length prefix, a count prefix, a key or a
    payload that needs bytes past the end of the buffer -- at the node at
    the offset or at any depth inside it -- [decode] reports an error, one
    of [UnrecognizedTag] and [OutOfBounds], and no node. *)
Theorem decode_rejects_malformed (buffer : list byte) (offset : N)
    (this : Value) :
  malformed (drop (N.to_nat offset) buffer) →
  ∃ e, decode buffer offset this = DecodeError e
       ∧ (e = UnrecognizedTag ∨ e = OutOfBounds).
Proof.
  intros Hmalformed. unfold decode.
  set (input := drop (N.to_nat offset) buffer) in *.
  destruct (proj1 (malformed_rejected (2 * length input + 1)) this input
              Hmalformed) as (e & -> & He); [lia |].
  exists e. split; [done |].
  destruct e; [by left | by right | done].
Qed.

(** Whatever [decode_value] accepts is well-formed. *)
Lemma decoded_well_formed (fuel : nat) :
  (∀ this input w rest,
     decode_value fuel this input = Decoded (w, rest) →
     well_formed input rest)
  ∧ (∀ count acc input l rest,
       decode_array fuel count acc input = Decoded (l, rest) →
       well_formed_entries ARRAY count input rest)
  ∧ (∀ count acc input m rest,
       decode_object fuel count acc input = Decoded (m, rest) →
       well_formed_entries OBJECT count input rest)
  ∧ (∀ count acc input m rest,
       decode_dictionary fuel count acc input = Decoded (m, rest) →
       well_formed_entries DICTIONARY count input rest).
Proof.
  induction fuel as [| fuel (IHv & IHa & IHo & IHd)];
    [by repeat split; intros |].
  split; [| split; [| split]].
  - intros this input w rest H. cbn [decode_value] in H.
    destruct (read_uint 1 input) as [[tag input0] | e] eqn:Htag;
      [| discriminate].
    cbn [mbind decoded_bind] in H.
    apply read_uint_complete_inv in Htag as (bytes & -> & Hone & ->).
    destruct bytes as [| b [| ? ?]]; try discriminate. clear Hone.
    assert (Hb : parse_uint [b] = Byte.to_N b).
    { pose proof (read_uint_complete 1 [b] [] eq_refl) as Hread.
      change ([b] ++ []) with [b] in Hread.
      rewrite read_uint_1_cons in Hread. congruence. }
    rewrite Hb in H. cbn [app].
    destruct (type_of_tag (Byte.to_N b)) as [t |] eqn:Ht; [| discriminate].
    destruct t;
      repeat match type of H with
        | context [read_uint ?width ?i] =>
            let E := fresh "E" in
            destruct (read_uint width i) as [[? ?] | ?] eqn:E;
            [| discriminate];
            cbn [mbind decoded_bind] in H;
            apply read_uint_complete_inv in E as (? & -> & ? & ->)
        | context [read_bytes ?n ?i] =>
            let E := fresh "E" in
            destruct (read_bytes n i) as [[? ?] | ?] eqn:E;
            [| discriminate];
            cbn [mbind decoded_bind] in H;
            apply read_bytes_inv in E as [-> ?]
        | context [decode_array ?f ?c ?a ?i] =>
            let E := fresh "E" in
            destruct (decode_array f c a i) as [[? ?] | ?] eqn:E;
            [| discriminate];
            cbn [mbind decoded_bind] in H; apply IHa in E
        | context [decode_object ?f ?c ?a ?i] =>
            let E := fresh "E" in
            destruct (decode_object f c a i) as [[? ?] | ?] eqn:E;
            [| discriminate];
            cbn [mbind decoded_bind] in H; apply IHo in E
        | context [decode_dictionary ?f ?c ?a ?i] =>
            let E := fresh "E" in
            destruct (decode_dictionary f c a i) as [[? ?] | ?] eqn:E;
            [| discriminate];
            cbn [mbind decoded_bind] in H; apply IHd in E
        end;
      injection H as <- <-.
    + by apply (fixed_width_node b NONE 0 [] input0).
    + by eapply (fixed_width_node b INT8).
    + by eapply (fixed_width_node b INT16).
    + by eapply (fixed_width_node b INT32).
    + by eapply (fixed_width_node b INT64).
    + by eapply (fixed_width_node b FLOAT).
    + by eapply (fixed_width_node b DOUBLE).
    + by eapply (length_prefixed_node b STRING).
    + by eapply (length_prefixed_node b LONG_STRING).
    + by eapply (length_prefixed_node b BYTE_ARRAY).
    + by eapply (container_node b OBJECT).
    + by eapply (container_node b ARRAY).
    + by eapply (container_node b DICTIONARY).
  - intros count acc input l rest H. rewrite decode_array_S in H.
    case_bool_decide as Hcount; [injection H as <- <-; subst; constructor |].
    destruct (decode_value fuel Value_default input) as [[w input2] | e] eqn:E;
      [| discriminate].
    cbn [mbind decoded_bind] in H.
    eapply entry_then_entries; eauto. constructor.
  - intros count acc input m rest H. rewrite decode_object_S in H.
    case_bool_decide as Hcount; [injection H as <- <-; subst; constructor |].
    destruct (read_uint 4 input) as [[key input1] | e] eqn:Hkey;
      [| discriminate].
    cbn [mbind decoded_bind] in H.
    destruct (decode_value fuel Value_default input1) as [[w input2] | e] eqn:E;
      [| discriminate].
    cbn [mbind decoded_bind] in H.
    apply read_uint_complete_inv in Hkey as (bytes & -> & Hlen & ->).
    eapply entry_then_entries; eauto. by constructor.
  - intros count acc input m rest H. rewrite decode_dictionary_S in H.
    case_bool_decide as Hcount; [injection H as <- <-; subst; constructor |].
    destruct (read_key input) as [[key input1] | e] eqn:Hkey; [| discriminate].
    cbn [mbind decoded_bind] in H.
    destruct (decode_value fuel Value_default input1) as [[w input2] | e] eqn:E;
      [| discriminate].
    cbn [mbind decoded_bind] in H.
    apply read_key_complete_inv in Hkey.
    eapply entry_then_entries; eauto.
Qed.

(** The constructor of [malformed] for a read that failed at the node
    itself, chosen by the tag. *)
Ltac fault_at_node :=
  first
    [ by (eapply payload_past_end; [eassumption | reflexivity |])
    | by (eapply length_prefix_past_end; [eassumption | reflexivity |])
    | by (eapply length_past_end; [eassumption | reflexivity | |])
    | by (eapply count_prefix_past_end; [eassumption | by eexists |])
    | by (eapply entries_past_end; [eassumption | by eexists | |]) ].

(** Whatever [decode_value] rejects is malformed: no input that the
    decoder faults is left out of [malformed]. *)
Lemma rejected_malformed (fuel : nat) :
  (∀ this input e,
     decode_value fuel this input = DecodeError e →
     e ≠ FuelExhausted →
     malformed input)
  ∧ (∀ count acc input e,
       decode_array fuel count acc input = DecodeError e →
       e ≠ FuelExhausted →
       malformed_entries ARRAY count input)
  ∧ (∀ count acc input e,
       decode_object fuel count acc input = DecodeError e →
       e ≠ FuelExhausted →
       malformed_entries OBJECT count input)
  ∧ (∀ count acc input e,
       decode_dictionary fuel count acc input = DecodeError e →
       e ≠ FuelExhausted →
       malformed_entries DICTIONARY count input).
Proof.
  induction fuel as [| fuel (IHv & IHa & IHo & IHd)];
    [repeat split; intros; simpl in *; congruence |].
  pose proof (decoded_well_formed fuel) as (Wv & _).
  split; [| split; [| split]].
  - intros this input e H He. cbn [decode_value] in H.
    destruct (read_uint 1 input) as [[tag input0] | e'] eqn:Htag;
      cbn [mbind decoded_bind] in H.
    2:{ apply read_uint_past_end_inv in Htag as [_ Hshort].
        destruct input; [constructor | simpl in Hshort; lia]. }
    apply read_uint_complete_inv in Htag as (bytes & -> & Hone & ->).
    destruct bytes as [| b [| ? ?]]; try discriminate. clear Hone.
    assert (Hb : parse_uint [b] = Byte.to_N b).
    { pose proof (read_uint_complete 1 [b] [] eq_refl) as Hread.
      change ([b] ++ []) with [b] in Hread.
      rewrite read_uint_1_cons in Hread. congruence. }
    rewrite Hb in H. cbn [app].
    destruct (type_of_tag (Byte.to_N b)) as [t |] eqn:Ht;
      [| by apply unrecognized_tag].
    destruct t; try discriminate;
      repeat match type of H with
        | context [read_uint ?width ?i] =>
            let E := fresh "E" in
            destruct (read_uint width i) as [[? ?] | ?] eqn:E;
            cbn [mbind decoded_bind] in H;
            [apply read_uint_complete_inv in E as (? & -> & ? & ->)
            | apply read_uint_past_end_inv in E as [_ ?]; fault_at_node]
        | context [read_bytes ?n ?i] =>
            let E := fresh "E" in
            destruct (read_bytes n i) as [[? ?] | ?] eqn:E;
            cbn [mbind decoded_bind] in H;
            [apply read_bytes_inv in E as [-> ?]
            | apply read_bytes_error in E as [_ ?]; fault_at_node]
        | context [decode_array ?f ?c ?a ?i] =>
            let E := fresh "E" in
            destruct (decode_array f c a i) as [[? ?] | ?] eqn:E;
            cbn [mbind decoded_bind] in H;
            [| injection H as ->; apply IHa in E; [fault_at_node | done]]
        | context [decode_object ?f ?c ?a ?i] =>
            let E := fresh "E" in
            destruct (decode_object f c a i) as [[? ?] | ?] eqn:E;
            cbn [mbind decoded_bind] in H;
            [| injection H as ->; apply IHo in E; [fault_at_node | done]]
        | context [decode_dictionary ?f ?c ?a ?i] =>
            let E := fresh "E" in
            destruct (decode_dictionary f c a i) as [[? ?] | ?] eqn:E;
            cbn [mbind decoded_bind] in H;
            [| injection H as ->; apply IHd in E; [fault_at_node | done]]
        end;
      discriminate.
  - intros count acc input e H He. rewrite decode_array_S in H.
    case_bool_decide as Hcount; [discriminate |].
    destruct (decode_value fuel Value_default input) as [[w input2] | e'] eqn:E;
      cbn [mbind decoded_bind] in H.
    + eapply later_entry_malformed; eauto. constructor.
    + injection H as ->. eapply child_malformed; eauto. constructor.
  - intros count acc input e H He. rewrite decode_object_S in H.
    case_bool_decide as Hcount; [discriminate |].
    destruct (read_uint 4 input) as [[key input1] | e'] eqn:Hkey;
      cbn [mbind decoded_bind] in H.
    2:{ apply read_uint_past_end_inv in Hkey as [_ Hshort].
        apply key_cut_short; [done | by constructor]. }
    apply read_uint_complete_inv in Hkey as (bytes & -> & Hlen & ->).
    destruct (decode_value fuel Value_default input1) as [[w input2] | e'] eqn:E;
      cbn [mbind decoded_bind] in H.
    + eapply later_entry_malformed; eauto. by constructor.
    + injection H as ->. eapply child_malformed; eauto. by constructor.
  - intros count acc input e H He. rewrite decode_dictionary_S in H.
    case_bool_decide as Hcount; [discriminate |].
    destruct (read_key input) as [[key input1] | e'] eqn:Hkey;
      cbn [mbind decoded_bind] in H.
    2:{ apply read_key_past_end_inv in Hkey as [_ Hshort].
        by apply key_cut_short. }
    apply read_key_complete_inv in Hkey.
    destruct (decode_value fuel Value_default input1) as [[w input2] | e'] eqn:E;
      cbn [mbind decoded_bind] in H.
    + eapply later_entry_malformed; eauto.
    + injection H as ->. eapply child_malformed; eauto.
Qed.

(** [decode] reports an error on the malformed inputs only. *)
Lemma decode_rejects_only_malformed (buffer : list byte) (offset : N)
    (this : Value) (e : decode_error) :
  decode buffer offset this = DecodeError e →
  malformed (drop (N.to_nat offset) buffer).
Proof.
  unfold decode. set (input := drop (N.to_nat offset) buffer).
  pose proof (decode_fuel_suffices (2 * length input + 1)) as (Hv & _).
  specialize (Hv this input (Nat.le_refl _)).
  destruct (decode_value _ this input) as [[w rest] | e'] eqn:Hdecode;
    [discriminate |].
  intros _. eapply (proj1 (rejected_malformed _)); [exact Hdecode | congruence].
Qed.

(** A count prefix that announces more entries than the bytes left can
    hold, at the least size of an entry, is malformed. *)
Lemma count_past_end (b : byte) (t : ValueType) (size : N)
    (prefix payload : list byte) :
  type_of_tag (Byte.to_N b) = Some t →
  entry_min_size t = Some size →
  length prefix = 4%nat →
  N.of_nat (length payload) < size * parse_uint prefix →
  malformed (b :: prefix ++ payload).
Proof.
  intros Htag Hsize Hprefix Hpayload.
  set (fuel := (2 * length payload + 2)%nat).
  pose proof (decode_consumes fuel) as (_ & Ca & Co & Cd).
  pose proof (decode_fuel_suffices fuel) as (_ & Fa & Fo & Fd).
  pose proof (rejected_malformed fuel) as (_ & Ra & Ro & Rd).
  apply (entries_past_end b t); [done | by eexists | done |].
  destruct t; try discriminate; injection Hsize as <-.
  - specialize (Fo (parse_uint prefix) ∅ payload (Nat.le_refl _)).
    destruct (decode_object fuel (parse_uint prefix) ∅ payload)
      as [[m rest] | e] eqn:E.
    + apply Co in E. lia.
    + apply (Ro _ _ _ _ E). congruence.
  - specialize (Fa (parse_uint prefix) [] payload (Nat.le_refl _)).
    destruct (decode_array fuel (parse_uint prefix) [] payload)
      as [[l rest] | e] eqn:E.
    + apply Ca in E. lia.
    + apply (Ra _ _ _ _ E). congruence.
  - specialize (Fd (parse_uint prefix) ∅ payload (Nat.le_refl _)).
    destruct (decode_dictionary fuel (parse_uint prefix) ∅ payload)
      as [[m rest] | e] eqn:E.
    + apply Cd in E. lia.
    + apply (Rd _ _ _ _ E). congruence.
Qed.

(** *** Malformed buffers *)

(** The example of the format's description: a STRING whose length prefix
    says 100 with 10 bytes left. *)
Lemma truncated_string_is_malformed : malformed truncated_string_buffer.
Proof.
  apply (length_past_end _ STRING 2 (write_uint 2 100) (repeat x01 10));
    [done | done | apply length_write_uint |].
  rewrite parse_write_uint. done.
Qed.

(** An array cut short after the first of its two elements: the count
    prefix needs a tag byte past the end. *)
Lemma truncated_array_is_malformed : malformed truncated_array_buffer.
Proof.
  apply (entries_past_end _ ARRAY (write_uint 4 2));
    [done | by eexists | apply length_write_uint |].
  rewrite parse_write_uint. change (2 mod 256 ^ N.of_nat 4) with 2.
  eapply (later_entry_malformed ARRAY 2 _ _ []); [done | constructor | |].
  - by apply (fixed_width_node _ INT8 1 [x05] []).
  - apply (child_malformed ARRAY _ [] []); [done | constructor | constructor].
Qed.

(** A dictionary key whose length prefix says 100 with 10 bytes left. *)
Lemma truncated_key_is_malformed : malformed truncated_key_buffer.
Proof.
  apply (entries_past_end _ DICTIONARY (write_uint 4 1));
    [done | by eexists | apply length_write_uint |].
  rewrite parse_write_uint. change (1 mod 256 ^ N.of_nat 4) with 1.
  apply key_cut_short; [done |].
  apply key_length_past_end; [apply length_write_uint |].
  rewrite parse_write_uint. done.
Qed.

(** A truncated STRING one level down, as the element of an array. *)
Lemma nested_truncated_string_is_malformed :
  malformed nested_truncated_string_buffer.
Proof.
  apply (entries_past_end _ ARRAY (write_uint 4 1));
    [done | by eexists | apply length_write_uint |].
  rewrite parse_write_uint. change (1 mod 256 ^ N.of_nat 4) with 1.
  eapply child_malformed; [done | constructor |].
  apply truncated_string_is_malformed.
Qed.

(** An unrecognized tag one level down, as the node of an object entry. *)
Lemma nested_unrecognized_tag_is_malformed :
  malformed nested_unrecognized_tag_buffer.
Proof.
  apply (entries_past_end _ OBJECT (write_uint 4 1));
    [done | by eexists | apply length_write_uint |].
  rewrite parse_write_uint. change (1 mod 256 ^ N.of_nat 4) with 1.
  apply (child_malformed OBJECT _ _ [xff; x00]); [done | |].
  - apply object_key, length_write_uint.
  - by apply unrecognized_tag.
Qed.

(** *** What the wire format cannot carry *)

Lemma decode_dictionary_keys (fuel : nat) :
  ∀ count acc input M rest,
    decode_dictionary fuel count acc input = Decoded (M, rest) →
    (∀ k, is_Some (acc !! k) → N.of_nat (String.length k) ≤ uint16_max) →
    ∀ k, is_Some (M !! k) → N.of_nat (String.length k) ≤ uint16_max.
Proof.
  induction fuel as [| fuel IH]; intros count acc input M rest H Hacc;
    [discriminate |].
  rewrite decode_dictionary_S in H.
  case_bool_decide; [by injection H as <- <- |].
  destruct (read_key input) as [[key input1] | e] eqn:Hkey; [| discriminate].
  cbn [mbind decoded_bind] in H.
  destruct (decode_value fuel Value_default input1) as [[child input2] | e];
    [| discriminate].
  cbn [mbind decoded_bind] in H.
  apply read_key_inv in Hkey as [_ Hshort].
  apply (IH _ _ _ _ _ H). intros k [x Hk].
  destruct (decide (key = k)) as [<- | Hne]; [done |].
  rewrite lookup_insert_ne in Hk by done. eauto.
Qed.

(** A dictionary key longer than 65535 bytes does not survive: whatever
    [decode] makes of the encoded bytes, it is not the encoded node. *)
Lemma long_key_does_not_roundtrip (v this : Value) (key : string)
    (buffer : list byte) (consumed : N) (w : Value) :
  type v = DICTIONARY →
  is_Some (dictionaryValue v !! key) →
  uint16_max < N.of_nat (String.length key) →
  decode (encode buffer v).2 (N.of_nat (length buffer)) this
  = Decoded (consumed, w) →
  document w ≠ document v.
Proof.
  intros Htag [child Hchild] Hlong Hdecode Hsame.
  unfold decode, encode in Hdecode. cbn [fst snd] in Hdecode.
  rewrite Nat2N.id, drop_app_length, Nat.add_1_r in Hdecode.
  set (fuel := (2 * length (wire v))%nat) in Hdecode. clearbody fuel.
  destruct v as [t i d s b o a di]. simpl in Htag, Hchild. subst t.
  cbn [wire type dictionaryValue decode_value] in Hdecode.
  rewrite read_tag_byte in Hdecode. simpl mbind in Hdecode.
  rewrite read_uint_write in Hdecode. cbn [mbind decoded_bind] in Hdecode.
  destruct (decode_dictionary _ _ ∅ _) as [[M rest] | e] eqn:HM;
    [| discriminate].
  cbn [mbind decoded_bind] in Hdecode. injection Hdecode as _ <-.
  cbn [document type dictionaryValue set_dictionaryValue set_type] in Hsame.
  injection Hsame as Hsame.
  assert (Hin : is_Some (M !! key)).
  { apply (f_equal (λ m, m !! key)) in Hsame.
    rewrite !lookup_fmap, Hchild in Hsame.
    destruct (M !! key); [by eexists | discriminate]. }
  assert (Hempty : ∀ k, is_Some ((∅ : gmap string Value) !! k) →
                        N.of_nat (String.length k) ≤ uint16_max).
  { intros k [x Hx]. by rewrite lookup_empty in Hx. }
  pose proof (decode_dictionary_keys _ _ _ _ _ _ HM Hempty key Hin). lia.
Qed.

(** *** The model against the source's containers and constructors *)

(** The entries are written in ascending key order, the iteration order of
    [std::map]. *)
Lemma entries_by_sorted_uint32 {A} (m : gmap N A) :
  Sorted (key_le N.leb) (entries_by N.leb m).
Proof.
  apply Sorted_merge_sort. intros a b. unfold key_le.
  destruct (N.leb_spec a.1 b.1) as [| Hlt]; [by left |].
  right. apply N.leb_le. lia.
Qed.

Lemma entries_by_sorted_string {A} (m : gmap string A) :
  Sorted (key_le String.leb) (entries_by String.leb m).
Proof.
  apply Sorted_merge_sort. intros a b. unfold key_le.
  apply String.leb_total.
Qed.

(** What the typed constructors build fits the wire format, as long as the
    sizes fit their 32-bit prefixes (and an object key its [uint32_t]). *)
Lemma typed_constructors_representable :
  (∀ w m, m < 2 ^ width_bits w → representable (Value_uint w m) = true)
  ∧ (∀ s, N.of_nat (String.length s) ≤ uint32_max →
          representable (Value_string s) = true)
  ∧ (∀ b, N.of_nat (length b) ≤ uint32_max →
          representable (Value_bytes b) = true)
  ∧ (∀ d, d < 2 ^ 64 → representable (Value_double d) = true)
  ∧ (∀ f, f ≤ uint32_max →
          double_to_float (float_to_double f) = f →
          representable (Value_float f) = true)
  ∧ (∀ l, N.of_nat (length l) ≤ uint32_max →
          forallb representable l = true →
          representable (Value_vector l) = true)
  ∧ representable Value_default = true.
Proof.
  pose proof uint_max_values as (H8 & H16 & H32). pose proof pow2_64 as H64.
  repeat split.
  - intros w m Hm.
    destruct w; simpl in Hm;
      unfold Value_uint, Value_uint8, Value_uint16, Value_uint32, Value_uint64;
      simpl; repeat case_bool_decide; simpl;
      first [reflexivity | lia | apply bool_decide_eq_true; lia].
  - intros s Hs. unfold Value_string.
    repeat case_bool_decide; simpl;
      first [reflexivity | lia | apply bool_decide_eq_true; lia].
  - intros b Hb. simpl. by apply bool_decide_eq_true.
  - intros d Hd. simpl. by apply bool_decide_eq_true.
  - intros f Hf Hexact. simpl. rewrite Hexact.
    by rewrite !bool_decide_eq_true_2.
  - intros l Hl Hall. simpl. rewrite Hall.
    by rewrite bool_decide_eq_true_2.
Qed.

(** *** Guards of the tag-checked members *)

Ltac run_accessors :=
  unfold asUInt, asInt, asInt8, asUInt8, asInt16, asUInt16, asInt32, asUInt32,
    asInt64, asUInt64, asFloat, asDouble, asString, asByteArray, asMap,
    asVector, asDictionary, begin_, end_, getSize, getType,
    subscript_uint32_const, subscript_uint32, subscript_string_const,
    subscript_string, hasElement_uint32, hasElement_string;
  run_method.

(** X1. With assertions compiled in, a typed accessor stops at its
    assertion exactly when the tag is outside its family, and the indexers
    and [hasElement] stop there whenever the tag is outside theirs. *)
Theorem guarded_members_stop_on_foreign_tag (this : Value) :
  NDEBUG = false →
  (∀ w, (asUInt w this = AssertionFailed
         ↔ is_integer_type (type this) = false)
        ∧ (asInt w this = AssertionFailed
           ↔ is_integer_type (type this) = false))
  ∧ (asFloat this = AssertionFailed ↔ is_floating_type (type this) = false)
  ∧ (asDouble this = AssertionFailed ↔ is_floating_type (type this) = false)
  ∧ (asString this = AssertionFailed ↔ is_string_type (type this) = false)
  ∧ (asByteArray this = AssertionFailed ↔ type this ≠ BYTE_ARRAY)
  ∧ (asMap this = AssertionFailed ↔ type this ≠ OBJECT)
  ∧ (asVector this = AssertionFailed ↔ type this ≠ ARRAY)
  ∧ (getSize this = AssertionFailed ↔ type this ≠ ARRAY)
  ∧ (begin_ this = AssertionFailed ↔ type this ≠ ARRAY)
  ∧ (end_ this = AssertionFailed ↔ type this ≠ ARRAY)
  ∧ (asDictionary this = AssertionFailed ↔ type this ≠ DICTIONARY)
  ∧ (∀ key, (subscript_string_const key this = AssertionFailed
             ↔ type this ≠ DICTIONARY)
            ∧ (subscript_string key this = AssertionFailed
               ↔ type this ≠ DICTIONARY)
            ∧ (hasElement_string key this = AssertionFailed
               ↔ type this ≠ DICTIONARY))
  ∧ (∀ key, type this ≠ OBJECT → type this ≠ ARRAY →
            subscript_uint32_const key this = AssertionFailed
            ∧ subscript_uint32 key this = AssertionFailed
            ∧ hasElement_uint32 key this = AssertionFailed).
Proof.
  intros Hdebug.
  repeat match goal with
         | |- _ ∧ _ => split
         | |- ∀ _ : uint_width, _ => intros []
         | |- ∀ _, _ => intro
         end;
    run_accessors; rewrite Hdebug; simpl;
    try (destruct (is_integer_type (type this)); simpl);
    try (destruct (is_floating_type (type this)); simpl);
    try (destruct (is_string_type (type this)); simpl);
    repeat case_bool_decide; simpl;
    try (destruct (dictionaryValue this !! _); simpl);
    first [done | split; intros; congruence].
Qed.

(** *** Writing a payload and reading it back *)

(** X2. A string, a byte array, an object map, an array or a double given
    to the constructor, or assigned to any node, is what the accessor of its
    family returns, in either build: the tag the constructor or the
    assignment picks always passes that accessor's assertion. *)
Theorem typed_payload_reads_back (this : Value) :
  (∀ s, asString (Value_string s) = Returns (s, Value_string s)
        ∧ ∃ this', assign_string s this = Returns ((), this')
                   ∧ asString this' = Returns (s, this'))
  ∧ (∀ b, asByteArray (Value_bytes b) = Returns (b, Value_bytes b)
          ∧ ∃ this', assign_bytes b this = Returns ((), this')
                     ∧ asByteArray this' = Returns (b, this'))
  ∧ (∀ m, asMap (Value_map m) = Returns (m, Value_map m)
          ∧ ∃ this', assign_map m this = Returns ((), this')
                     ∧ asMap this' = Returns (m, this'))
  ∧ (∀ l, asVector (Value_vector l) = Returns (l, Value_vector l)
          ∧ ∃ this', assign_vector l this = Returns ((), this')
                     ∧ asVector this' = Returns (l, this'))
  ∧ (∀ d, asDouble (Value_double d) = Returns (d, Value_double d)
          ∧ ∃ this', assign_double d this = Returns ((), this')
                     ∧ asDouble this' = Returns (d, this')).
Proof.
  repeat match goal with
         | |- _ ∧ _ => split
         | |- ∀ _, _ => intro
         end;
    unfold Value_string, assign_string, assign_bytes, assign_map,
      assign_vector, assign_double;
    run_accessors;
    repeat case_bool_decide; simpl; rewrite ?orb_true_r;
    first [reflexivity
          | eexists; split; [reflexivity |]; simpl;
            by rewrite ?orb_true_r].
Qed.

Lemma narrowest_tag_width (m : N) (t : ValueType) :
  m < 2 ^ 64 →
  narrowest_tag_law m t →
  ∃ w, tag_width t = Some w ∧ m < 2 ^ width_bits w
       ∧ is_integer_type t = true.
Proof.
  intros Hm (H8 & H16 & H32 & H64). rewrite pow2_64 in Hm.
  destruct (decide (m ≤ 255)) as [Hle | Hgt].
  { assert (t = INT8) as -> by (by apply H8).
    exists U8. repeat split. simpl. lia. }
  destruct (decide (m ≤ 65535)) as [Hle | Hgt'].
  { assert (t = INT16) as -> by (apply H16; lia).
    exists U16. repeat split. simpl. lia. }
  destruct (decide (m ≤ 4294967295)) as [Hle | Hgt''].
  { assert (t = INT32) as -> by (apply H32; lia).
    exists U32. repeat split. simpl. lia. }
  assert (t = INT64) as -> by (apply H64; lia).
  exists U64. repeat split. simpl. rewrite pow2_64. lia.
Qed.

Lemma asUInt_exact (w : uint_width) (this : Value) :
  is_integer_type (type this) = true →
  intValue this < 2 ^ width_bits w →
  asUInt w this = Returns (intValue this, this).
Proof.
  intros Htag Hfits.
  destruct w; run_accessors; rewrite Htag, orb_true_r;
    unfold static_cast_unsigned; simpl in Hfits;
    by rewrite ?N.mod_small.
Qed.

(** X3. The narrowed tag loses nothing: a magnitude given through any of
    the four unsigned overloads, of the constructor or of the assignment,
    is returned exactly by [asUInt64] and already by the unsigned accessor
    of the width its tag names. *)
Theorem narrowed_integer_reads_back (w : uint_width) (m : N) (this : Value) :
  m < 2 ^ width_bits w →
  (∃ w', tag_width (type (Value_uint w m)) = Some w'
         ∧ asUInt w' (Value_uint w m) = Returns (m, Value_uint w m)
         ∧ asUInt64 (Value_uint w m) = Returns (m, Value_uint w m))
  ∧ ∃ this', assign_uint w m this = Returns ((), this')
      ∧ ∃ w', tag_width (type this') = Some w'
              ∧ asUInt w' this' = Returns (m, this')
              ∧ asUInt64 this' = Returns (m, this').
Proof.
  intros Hm.
  assert (Hm64 : m < 2 ^ 64).
  { rewrite pow2_64. destruct w; simpl in Hm; lia. }
  assert (Hread : ∀ v, intValue v = m → narrowest_tag_law m (type v) →
            ∃ w', tag_width (type v) = Some w'
                  ∧ asUInt w' v = Returns (m, v)
                  ∧ asUInt64 v = Returns (m, v)).
  { intros v Hint Hlaw.
    destruct (narrowest_tag_width m (type v) Hm64 Hlaw) as (w' & Hw' & Hfits & Htag).
    exists w'. split; [done |]. rewrite <- Hint in *.
    split; [by apply asUInt_exact |].
    exact (asUInt_exact U64 v Htag Hm64). }
  split.
  - destruct (Value_uint_narrowest w m Hm) as [Hint Hlaw]. by apply Hread.
  - destruct (assign_uint_narrowest w m this Hm) as (this' & Hrun & Hint & Hlaw).
    exists this'. split; [done |]. by apply Hread.
Qed.

(** X4. On a node holding an integer whose magnitude fits [N] bits, the
    signed accessor of width [N] returns the magnitude itself below
    [2^(N-1)] and the magnitude minus [2^N] from there on. *)
Theorem signed_accessor_reads (w : uint_width) (this : Value) :
  is_integer_type (type this) = true →
  intValue this < 2 ^ width_bits w →
  asInt w this
  = Returns (if intValue this <? 2 ^ (width_bits w - 1)
             then Z.of_N (intValue this)
             else (Z.of_N (intValue this) - 2 ^ Z.of_N (width_bits w))%Z,
             this).
Proof.
  intros Htag Hfits.
  assert (Hcast : static_cast_signed (width_bits w) (intValue this)
                  = if intValue this <? 2 ^ (width_bits w - 1)
                    then Z.of_N (intValue this)
                    else (Z.of_N (intValue this)
                          - 2 ^ Z.of_N (width_bits w))%Z).
  { unfold static_cast_signed. cbv zeta. rewrite N.mod_small by done.
    by rewrite N2Z.inj_pow. }
  rewrite <- Hcast.
  destruct w; run_accessors; by rewrite Htag, orb_true_r.
Qed.

(** *** Assignment *)


(** X6. Assigning a typed value to a default-constructed node gives the
    node the constructor of that type builds: constructor and assignment
    pick the same tag and store the same payload. *)
Theorem assignment_to_fresh_node_is_construction :
  (∀ w m, assign_uint w m Value_default = Returns ((), Value_uint w m))
  ∧ (∀ f, assign_float f Value_default = Returns ((), Value_float f))
  ∧ (∀ d, assign_double d Value_default = Returns ((), Value_double d))
  ∧ (∀ s, assign_string s Value_default = Returns ((), Value_string s))
  ∧ (∀ b, assign_bytes b Value_default = Returns ((), Value_bytes b))
  ∧ (∀ m, assign_map m Value_default = Returns ((), Value_map m))
  ∧ (∀ l, assign_vector l Value_default = Returns ((), Value_vector l))
  ∧ (∀ t, assign_Type t Value_default = Returns ((), Value_Type t)).
Proof.
  repeat match goal with
         | |- _ ∧ _ => split
         | |- ∀ _ : uint_width, _ => intros []
         | |- ∀ _, _ => intro
         end;
    unfold assign_uint, assign_uint8, assign_uint16, assign_uint32,
      assign_uint64, assign_float, assign_double, assign_string, assign_bytes,
      assign_map, assign_vector, assign_Type, Value_uint, Value_uint8,
      Value_uint16, Value_uint32, Value_uint64, Value_string;
    run_method;
    repeat case_bool_decide; simpl; first [reflexivity | lia].
Qed.

(** *** Containers: indexing for writing, appending, reading *)

Lemma set_objectValue_same (this : Value) :
  set_objectValue (objectValue this) this = this.
Proof. by destruct this. Qed.

Lemma set_dictionaryValue_same (this : Value) :
  set_dictionaryValue (dictionaryValue this) this = this.
Proof. by destruct this. Qed.

Lemma set_type_same (this : Value) : set_type (type this) this = this.
Proof. by destruct this. Qed.

Lemma map_subscript_lookup {K} `{Countable K} (key k : K) (m : gmap K Value) :
  map_subscript key m !! k
  = if decide (k = key) then Some (default Value_default (m !! key))
    else m !! k.
Proof.
  unfold map_subscript. destruct (m !! key) as [x |] eqn:Hkey.
  - case_decide as Hk; [by rewrite Hk, Hkey | done].
  - case_decide as Hk; [by rewrite Hk, lookup_insert_eq |].
    by rewrite lookup_insert_ne.
Qed.

Lemma array_lookup_in_range (l : list Value) (key : N) :
  key < N.of_nat (length l) ↔ is_Some (l !! N.to_nat key).
Proof. rewrite lookup_lt_is_Some. lia. Qed.

(** The calls on a node of the right tag, with the assertion passed. *)

Lemma subscript_uint32_on_object (this : Value) (key : N) :
  type this = OBJECT →
  subscript_uint32 key this
  = Returns (ObjectElement key,
             set_objectValue (map_subscript key (objectValue this)) this).
Proof.
  intros Htag. unfold subscript_uint32. run_method. rewrite Htag.
  by rewrite (bool_decide_eq_true_2 (OBJECT = OBJECT)), orb_true_r.
Qed.

Lemma subscript_uint32_on_array (this : Value) (key : N) :
  type this = ARRAY →
  subscript_uint32 key this
  = if bool_decide (key < N.of_nat (length (arrayValue this)))
    then Returns (ArrayElement key, this)
    else UndefinedBehaviour.
Proof.
  intros Htag. unfold subscript_uint32. run_method. rewrite Htag. simpl.
  rewrite orb_true_r. simpl.
  replace (set_type ARRAY this) with this
    by (rewrite <- Htag; symmetry; apply set_type_same).
  by case_bool_decide.
Qed.

Lemma subscript_string_on_dictionary (this : Value) (key : string) :
  type this = DICTIONARY →
  subscript_string key this
  = Returns (DictionaryElement key,
             set_dictionaryValue (map_subscript key (dictionaryValue this))
               this).
Proof.
  intros Htag. unfold subscript_string. run_method. rewrite Htag.
  by rewrite (bool_decide_eq_true_2 (DICTIONARY = DICTIONARY)), orb_true_r.
Qed.

Lemma read_on_object (this : Value) (key : N) :
  type this = OBJECT →
  hasElement_uint32 key this
  = Returns (bool_decide (is_Some (objectValue this !! key)), this)
  ∧ subscript_uint32_const key this
    = Returns (default Value_default (objectValue this !! key), this).
Proof.
  intros Htag. unfold hasElement_uint32, subscript_uint32_const.
  run_method. rewrite Htag. simpl. rewrite orb_true_r. simpl.
  split; [done |]. by destruct (objectValue this !! key).
Qed.

Lemma read_on_array (this : Value) (key : N) :
  type this = ARRAY →
  hasElement_uint32 key this
  = Returns (bool_decide (is_Some (arrayValue this !! N.to_nat key)), this)
  ∧ subscript_uint32_const key this
    = Returns (default Value_default (arrayValue this !! N.to_nat key), this).
Proof.
  intros Htag. unfold hasElement_uint32, subscript_uint32_const.
  run_method. rewrite Htag. simpl. rewrite orb_true_r. simpl.
  pose proof (array_lookup_in_range (arrayValue this) key) as Hrange.
  case_bool_decide as Hkey.
  - apply Hrange in Hkey as Hsome. destruct Hsome as [x Hx].
    rewrite Hx. simpl. split; [| done].
    by rewrite ?bool_decide_eq_true_2.
  - destruct (arrayValue this !! N.to_nat key) as [x |] eqn:Hx.
    { exfalso. apply Hkey, Hrange. by eexists. }
    simpl. split; [| done].
    first [done
          | rewrite bool_decide_eq_false_2; [done | by intros [? ?]]].
Qed.

Lemma read_on_dictionary (this : Value) (key : string) :
  type this = DICTIONARY →
  hasElement_string key this
  = Returns (bool_decide (is_Some (dictionaryValue this !! key)), this)
  ∧ subscript_string_const key this
    = Returns (default Value_default (dictionaryValue this !! key), this).
Proof.
  intros Htag. unfold hasElement_string, subscript_string_const.
  run_method. rewrite Htag.
  rewrite (bool_decide_eq_true_2 (DICTIONARY = DICTIONARY)), orb_true_r
    by done.
  split; [done |]. by destruct (dictionaryValue this !! key).
Qed.

(** X7. On an OBJECT the mutable integer indexer finds or inserts: the
    reference it returns denotes the entry already stored under the key, or
    a default-constructed (NONE) node inserted under it; no other entry, no
    other member and not the tag change, an existing entry is not
    overwritten, and afterwards [hasElement] holds for the key and the read
    form returns that entry. *)
Theorem mutable_index_object_finds_or_inserts (this : Value) (key : N) :
  type this = OBJECT →
  ∃ this', subscript_uint32 key this = Returns (ObjectElement key, this')
    ∧ deref (ObjectElement key) this'
      = Some (default Value_default (objectValue this !! key))
    ∧ (∀ k, k ≠ key → objectValue this' !! k = objectValue this !! k)
    ∧ type this' = OBJECT
    ∧ other_members_kept ObjectMember this this'
    ∧ (is_Some (objectValue this !! key) → this' = this)
    ∧ (objectValue this !! key = None →
       size (objectValue this') = S (size (objectValue this)))
    ∧ hasElement_uint32 key this' = Returns (true, this')
    ∧ subscript_uint32_const key this'
      = Returns (default Value_default (objectValue this !! key), this').
Proof.
  intros Htag.
  set (this' := set_objectValue (map_subscript key (objectValue this)) this).
  assert (Htag' : type this' = OBJECT) by done.
  assert (Hlookup : objectValue this' !! key
                    = Some (default Value_default (objectValue this !! key))).
  { simpl. rewrite map_subscript_lookup. by case_decide. }
  destruct (read_on_object this' key Htag') as [Hhas Hread].
  rewrite Hlookup in Hhas, Hread.
  exists this'.
  split; [by apply subscript_uint32_on_object |].
  split; [exact Hlookup |].
  split; [intros k Hk; simpl; rewrite map_subscript_lookup; by case_decide |].
  split; [exact Htag' |].
  split; [unfold other_members_kept; repeat split; intros; simpl; congruence |].
  split.
  { intros [x Hx]. unfold this', map_subscript. rewrite Hx.
    apply set_objectValue_same. }
  split.
  { intros Hnone. simpl. unfold map_subscript. rewrite Hnone.
    by apply map_size_insert_None. }
  split; [| exact Hread].
  rewrite Hhas. by rewrite bool_decide_eq_true_2.
Qed.

(** X8. On a DICTIONARY the mutable string indexer finds or inserts in the
    same way, and the read form and [hasElement] then see the entry. *)
Theorem mutable_index_dictionary_finds_or_inserts (this : Value)
    (key : string) :
  type this = DICTIONARY →
  ∃ this', subscript_string key this = Returns (DictionaryElement key, this')
    ∧ deref (DictionaryElement key) this'
      = Some (default Value_default (dictionaryValue this !! key))
    ∧ (∀ k, k ≠ key → dictionaryValue this' !! k = dictionaryValue this !! k)
    ∧ type this' = DICTIONARY
    ∧ other_members_kept DictionaryMember this this'
    ∧ (is_Some (dictionaryValue this !! key) → this' = this)
    ∧ (dictionaryValue this !! key = None →
       size (dictionaryValue this') = S (size (dictionaryValue this)))
    ∧ hasElement_string key this' = Returns (true, this')
    ∧ subscript_string_const key this'
      = Returns (default Value_default (dictionaryValue this !! key), this').
Proof.
  intros Htag.
  set (this' := set_dictionaryValue
                  (map_subscript key (dictionaryValue this)) this).
  assert (Htag' : type this' = DICTIONARY) by done.
  assert (Hlookup : dictionaryValue this' !! key
                    = Some (default Value_default
                              (dictionaryValue this !! key))).
  { cbn [this' dictionaryValue set_dictionaryValue].
    rewrite map_subscript_lookup. by case_decide. }
  destruct (read_on_dictionary this' key Htag') as [Hhas Hread].
  rewrite Hlookup in Hhas, Hread.
  exists this'.
  split; [by apply subscript_string_on_dictionary |].
  split; [exact Hlookup |].
  split.
  { intros k Hk. cbn [this' dictionaryValue set_dictionaryValue].
    rewrite map_subscript_lookup. by case_decide. }
  split; [exact Htag' |].
  split; [unfold other_members_kept; repeat split; intros; simpl; congruence |].
  split.
  { intros [x Hx]. unfold this', map_subscript. rewrite Hx.
    apply set_dictionaryValue_same. }
  split.
  { intros Hnone. cbn [this' dictionaryValue set_dictionaryValue].
    unfold map_subscript. rewrite Hnone. by apply map_size_insert_None. }
  split; [| exact Hread].
  rewrite Hhas. by rewrite bool_decide_eq_true_2.
Qed.

(** X9. On an OBJECT or an ARRAY the read form of the integer indexer and
    [hasElement] agree, in either build: [hasElement] tells whether the key
    denotes an element, and the read returns that element if it does and a
    default-constructed node if not; the read never indexes the vector out
    of range. *)
Theorem read_agrees_with_hasElement (this : Value) (key : N) :
  type this = OBJECT ∨ type this = ARRAY →
  hasElement_uint32 key this
  = Returns (bool_decide (is_Some (deref (element_reference this key) this)),
             this)
  ∧ subscript_uint32_const key this
    = Returns (default Value_default (deref (element_reference this key) this),
               this).
Proof.
  intros [Htag | Htag]; unfold element_reference; rewrite Htag.
  - rewrite (bool_decide_eq_true_2 (OBJECT = OBJECT)) by done.
    by apply read_on_object.
  - rewrite (bool_decide_eq_false_2 (ARRAY = OBJECT)) by done.
    by apply read_on_array.
Qed.

(** X10. On an ARRAY the write form of the integer indexer does not grow
    the array: below the length it returns a reference to the element the
    read form returns and leaves the node as it is, at or past the length
    it indexes the vector out of range, where the read form returns a
    default-constructed node. *)
Theorem mutable_index_array_does_not_grow (this : Value) (key : N) :
  type this = ARRAY →
  (key < N.of_nat (length (arrayValue this)) →
   subscript_uint32 key this = Returns (ArrayElement key, this)
   ∧ ∃ x, deref (ArrayElement key) this = Some x
          ∧ subscript_uint32_const key this = Returns (x, this))
  ∧ (N.of_nat (length (arrayValue this)) ≤ key →
     subscript_uint32 key this = UndefinedBehaviour
     ∧ subscript_uint32_const key this = Returns (Value_default, this)
     ∧ hasElement_uint32 key this = Returns (false, this)).
Proof.
  intros Htag.
  destruct (read_on_array this key Htag) as [Hhas Hread].
  rewrite (subscript_uint32_on_array this key Htag).
  split; intros Hkey.
  - rewrite bool_decide_eq_true_2 by done. split; [done |].
    apply array_lookup_in_range in Hkey as [x Hx].
    exists x. split; [done |]. rewrite Hread. by rewrite Hx.
  - assert (Hnone : arrayValue this !! N.to_nat key = None)
      by (apply lookup_ge_None; lia).
    rewrite bool_decide_eq_false_2 by lia. split; [done |].
    rewrite Hread, Hhas, Hnone. split; [done |].
    rewrite bool_decide_eq_false_2; [done |]. by intros [? ?].
Qed.

(** X11. Appending to an ARRAY with room left in the 32-bit size: the size
    reported grows by one, the appended node is what the read form returns
    at the old size, [hasElement] holds there, and every element stored
    before is still read at its index. *)
Theorem append_then_read (this node : Value) :
  type this = ARRAY →
  N.of_nat (length (arrayValue this)) < uint32_max →
  ∃ this', append node this = Returns ((), this')
    ∧ getSize this
      = Returns (N.of_nat (length (arrayValue this)), this)
    ∧ getSize this'
      = Returns (N.of_nat (length (arrayValue this)) + 1, this')
    ∧ subscript_uint32_const (N.of_nat (length (arrayValue this))) this'
      = Returns (node, this')
    ∧ hasElement_uint32 (N.of_nat (length (arrayValue this))) this'
      = Returns (true, this')
    ∧ (∀ (i : nat) (x : Value),
         arrayValue this !! i = Some x →
         subscript_uint32_const (N.of_nat i) this' = Returns (x, this')).
Proof.
  intros Htag Hroom. pose proof uint_max_values as (_ & _ & Hmax).
  set (this' := set_arrayValue (arrayValue this ++ [node]) this).
  assert (Htag' : type this' = ARRAY) by done.
  assert (Hread : ∀ key,
            hasElement_uint32 key this'
            = Returns (bool_decide (is_Some ((arrayValue this ++ [node])
                                             !! N.to_nat key)), this')
            ∧ subscript_uint32_const key this'
              = Returns (default Value_default
                           ((arrayValue this ++ [node]) !! N.to_nat key),
                         this')).
  { intros key. exact (read_on_array this' key Htag'). }
  assert (Hsize : ∀ v n, type v = ARRAY → N.of_nat (length (arrayValue v)) = n →
            n ≤ uint32_max → getSize v = Returns (n, v)).
  { intros v n Hv Hn Hle. unfold getSize. run_method. rewrite Hv. simpl.
    rewrite orb_true_r. unfold static_cast_unsigned.
    rewrite Hn, N.mod_small; [done |].
    change (2 ^ 32) with 4294967296. lia. }
  exists this'. split; [done |].
  split; [apply Hsize; [done | done | lia] |].
  split.
  { apply Hsize; [done | | lia]. simpl. rewrite length_app. simpl. lia. }
  assert (Hlast : (arrayValue this ++ [node])
                  !! N.to_nat (N.of_nat (length (arrayValue this)))
                  = Some node).
  { rewrite Nat2N.id. by rewrite lookup_app_r, Nat.sub_diag. }
  split; [| split].
  - rewrite (proj2 (Hread _)). by rewrite Hlast.
  - rewrite (proj1 (Hread _)). rewrite Hlast.
    by rewrite bool_decide_eq_true_2.
  - intros i x Hx. rewrite (proj2 (Hread _)). rewrite Nat2N.id.
    by rewrite (lookup_app_l_Some _ _ _ _ Hx).
Qed.

(** X12. Appending nodes one after the other adds them to the array
    payload in that order; started on [Value(Type::ARRAY)] it builds the
    node the vector constructor builds from the same nodes. *)
Theorem append_each_builds_vector (nodes : list Value) (this : Value) :
  append_each nodes this
  = Returns ((), set_arrayValue (arrayValue this ++ nodes) this)
  ∧ append_each nodes (Value_Type ARRAY) = Returns ((), Value_vector nodes).
Proof.
  assert (Hgeneral : ∀ v, append_each nodes v
                          = Returns ((), set_arrayValue (arrayValue v ++ nodes) v)).
  { induction nodes as [| node nodes IH]; intros v.
    - simpl. unfold method_ret. rewrite app_nil_r. by destruct v.
    - cbn [append_each]. unfold method_bind, append, modify_this.
      rewrite IH. simpl. by rewrite <- app_assoc. }
  split; [apply Hgeneral |]. by rewrite Hgeneral.
Qed.

(** X13. Writing through the reference the mutable integer indexer
    returned, on an OBJECT or an ARRAY: the read form then returns the node
    written, [hasElement] holds for the key, and what every other key
    denotes is what it denoted before the indexing. *)
Theorem write_through_reads_back (this this' x : Value) (key : N)
    (r : reference) :
  type this = OBJECT ∨ type this = ARRAY →
  subscript_uint32 key this = Returns (r, this') →
  subscript_uint32_const key (store r x this') = Returns (x, store r x this')
  ∧ hasElement_uint32 key (store r x this') = Returns (true, store r x this')
  ∧ (∀ k, k ≠ key →
          deref (element_reference this k) (store r x this')
          = deref (element_reference this k) this).
Proof.
  intros [Htag | Htag] Hindex.
  - rewrite (subscript_uint32_on_object this key Htag) in Hindex.
    injection Hindex as <- <-.
    set (stored := store (ObjectElement key) x _).
    assert (Hstored : type stored = OBJECT) by done.
    destruct (read_on_object stored key Hstored) as [Hhas Hread].
    assert (Hlookup : objectValue stored !! key = Some x)
      by apply lookup_insert_eq.
    rewrite Hlookup in Hhas, Hread.
    split; [done |]. split.
    + rewrite Hhas. by rewrite bool_decide_eq_true_2.
    + intros k Hk. unfold element_reference. rewrite Htag. simpl.
      rewrite lookup_insert_ne by done.
      rewrite map_subscript_lookup. by case_decide.
  - rewrite (subscript_uint32_on_array this key Htag) in Hindex.
    case_bool_decide as Hkey; [| discriminate].
    injection Hindex as <- <-.
    set (stored := store (ArrayElement key) x this).
    assert (Hstored : type stored = ARRAY) by done.
    destruct (read_on_array stored key Hstored) as [Hhas Hread].
    assert (Hlookup : arrayValue stored !! N.to_nat key = Some x)
      by (apply list_lookup_insert_eq; lia).
    rewrite Hlookup in Hhas, Hread.
    split; [done |]. split.
    + rewrite Hhas. by rewrite bool_decide_eq_true_2.
    + intros k Hk. unfold element_reference. rewrite Htag. simpl.
      apply list_lookup_insert_ne. lia.
Qed.

(** X14. Writing through the reference the mutable string indexer
    returned, on a DICTIONARY: the read form then returns the node written,
    [hasElement] holds for the key, and every other key keeps its entry or
    stays absent. *)
Theorem write_through_dictionary_reads_back (this this' x : Value)
    (key : string) (r : reference) :
  type this = DICTIONARY →
  subscript_string key this = Returns (r, this') →
  subscript_string_const key (store r x this') = Returns (x, store r x this')
  ∧ hasElement_string key (store r x this') = Returns (true, store r x this')
  ∧ (∀ k, k ≠ key →
          dictionaryValue (store r x this') !! k = dictionaryValue this !! k).
Proof.
  intros Htag Hindex.
  rewrite (subscript_string_on_dictionary this key Htag) in Hindex.
  injection Hindex as <- <-.
  set (stored := store (DictionaryElement key) x _).
  assert (Hstored : type stored = DICTIONARY) by done.
  destruct (read_on_dictionary stored key Hstored) as [Hhas Hread].
  assert (Hlookup : dictionaryValue stored !! key = Some x).
  { cbn [stored store dictionaryValue set_dictionaryValue].
    apply lookup_insert_eq. }
  rewrite Hlookup in Hhas, Hread.
  split; [done |]. split.
  - rewrite Hhas. by rewrite bool_decide_eq_true_2.
  - intros k Hk. cbn [stored store dictionaryValue set_dictionaryValue].
    rewrite lookup_insert_ne by done.
    rewrite map_subscript_lookup. by case_decide.
Qed.

End OBF.

(** * The properties on concrete nodes *)

(** [Value(uint32_t(300))] is tagged INT16 and takes three bytes, the tag
    and the two payload bytes 01 2C (most significant first) or 2C 01
    (least significant first); decoding gives INT16 and 300 back. *)
Example encode_uint32_300 :
  type (Value_uint32 0 0 300) = INT16
  ∧ encode (λ n, n) true [] (Value_uint32 0 0 300) = (3, [x02; x01; x2c])
  ∧ encode (λ n, n) false [] (Value_uint32 0 0 300) = (3, [x02; x2c; x01])
  ∧ decode 0 0 (λ n, n) true [x02; x01; x2c] 0 (Value_default 0 0)
    = Decoded (3, Value_uint32 0 0 300)
  ∧ decode 0 0 (λ n, n) false [x02; x2c; x01] 0 (Value_default 0 0)
    = Decoded (3, Value_uint32 0 0 300).
Proof. repeat split; vm_compute; reflexivity. Qed.

(** The array [[Value("hi"), Value(uint8_t(5))]] decodes to an array of
    length 2 whose element 0 is the STRING "hi" and whose element 1 is the
    INT8 5. *)
Example encode_example_array :
  decode 0 0 (λ n, n) true
    (encode (λ n, n) true [] (example_array 0 0)).2 0 (Value_default 0 0)
  = Decoded (12, example_array 0 0)
  ∧ getSize false (example_array 0 0) = Returns (2, example_array 0 0)
  ∧ subscript_uint32_const false 0 0 0 (example_array 0 0)
    = Returns (Value_string 0 0 "hi", example_array 0 0)
  ∧ subscript_uint32_const false 0 0 1 (example_array 0 0)
    = Returns (Value_uint8 0 0 5, example_array 0 0).
Proof. repeat split; vm_compute; reflexivity. Qed.

Lemma decode_encode_roundtrip_witness :
  representable (λ n, n) (λ n, n) (example_dictionary 0 0) = true
  ∧ ∃ w, decode 0 0 (λ n, n) true
           ((encode (λ n, n) true [x00; x00] (example_dictionary 0 0)).2
              ++ [x0b])
           (N.of_nat (length [x00; x00])) (Value_default 0 0)
         = Decoded (57, w)
         ∧ document w = document (example_dictionary 0 0).
Proof.
  assert (H : representable (λ n, n) (λ n, n) (example_dictionary 0 0) = true)
    by (vm_compute; reflexivity).
  split; [exact H |].
  exact (decode_encode_roundtrip 0 0 (λ n, n) (λ n, n) true
           (example_dictionary 0 0) (Value_default 0 0) [x00; x00] [x0b] H).
Defined.

(** A node outside the wire format built by re-tagging: an INT8 tag put on
    the magnitude 300 encodes as one payload byte, and what comes back
    holds 44. *)
Lemma retagged_integer_does_not_roundtrip :
  assign_Type INT8 (Value_uint16 0 0 300) = Returns ((), retagged_300 0 0)
  ∧ asUInt64 false (retagged_300 0 0) = Returns (300, retagged_300 0 0)
  ∧ decode 0 0 (λ n, n) true
      (encode (λ n, n) true [] (retagged_300 0 0)).2 0 (Value_default 0 0)
    = Decoded (2, Value_uint8 0 0 44)
  ∧ decode 0 0 (λ n, n) false
      (encode (λ n, n) false [] (retagged_300 0 0)).2 0 (Value_default 0 0)
    = Decoded (2, Value_uint8 0 0 44)
  ∧ document (Value_uint8 0 0 44) ≠ document (retagged_300 0 0).
Proof.
  repeat split; try (vm_compute; reflexivity).
  vm_compute. discriminate.
Qed.

(** C1 fails on a node built through the ordinary interface: a dictionary
    whose one key has 65536 bytes.  Whatever [decode] returns on the
    encoded bytes, it is not a node structurally equal to the
    dictionary. *)
Lemma long_key_dictionary_does_not_roundtrip :
  ¬ ∃ consumed w,
      decode 0 0 (λ n, n) true
        (encode (λ n, n) true [] (long_key_dictionary 0 0)).2 0
        (Value_default 0 0)
      = Decoded (consumed, w)
      ∧ document w = document (long_key_dictionary 0 0).
Proof.
  intros (consumed & w & Hdecode & Hsame). revert Hsame.
  apply (long_key_does_not_roundtrip 0 0 (λ n, n) (λ n, n) true
           (long_key_dictionary 0 0) (Value_default 0 0) long_key []
           consumed w); [reflexivity | | | exact Hdecode].
  - unfold long_key_dictionary.
    cbn [dictionaryValue set_dictionaryValue].
    rewrite lookup_singleton_eq. by eexists.
  - unfold long_key.
    rewrite length_string_of_list_byte, repeat_length, N2Nat.id.
    reflexivity.
Qed.

Lemma decode_rejects_malformed_witness :
  malformed true (drop (N.to_nat 0) (truncated_string_buffer true))
  ∧ decode 0 0 (λ n, n) true (truncated_string_buffer true) 0
      (Value_default 0 0)
    = DecodeError OutOfBounds.
Proof.
  assert (H : malformed true (drop (N.to_nat 0) (truncated_string_buffer true))).
  { exact (truncated_string_is_malformed true). }
  split; [exact H |].
  destruct (decode_rejects_malformed 0 0 (λ n, n) true
              (truncated_string_buffer true) 0 (Value_default 0 0) H)
    as (e & He & Hkind).
  rewrite He. f_equal.
  destruct Hkind as [-> | ->]; [| reflexivity].
  vm_compute in He. discriminate He.
Defined.

Lemma tag_narrowing_witness :
  300 < 2 ^ width_bits U32
  ∧ type (Value_uint 0 0 U32 300) = INT16
  ∧ ∃ this', assign_uint U32 300 (Value_uint 0 0 U64 1099511627776)
             = Returns ((), this')
             ∧ type this' = INT16.
Proof.
  assert (H : 300 < 2 ^ width_bits U32) by reflexivity.
  destruct (tag_narrowing 0 0 U32 300 (Value_uint 0 0 U64 1099511627776) H)
    as [[_ (_ & H16 & _)] (this' & Hrun & _ & (_ & H16' & _) & _)].
  split; [exact H |]. split; [apply H16; lia |].
  exists this'. split; [exact Hrun | apply H16'; lia].
Defined.

Lemma container_read_safety_witness :
  reads_nothing false 0 0 (example_object 0 0) (subscript_uint32_const false 0 0 7)
  ∧ subscript_uint32_const false 0 0 7 (example_object 0 0)
    = Returns (Value_default 0 0, example_object 0 0)
  ∧ reads_nothing false 0 0 (example_array 0 0) (subscript_uint32_const false 0 0 2)
  ∧ subscript_uint32_const false 0 0 2 (example_array 0 0)
    = Returns (Value_default 0 0, example_array 0 0)
  ∧ reads_nothing false 0 0 (example_dictionary 0 0)
      (subscript_string_const false 0 0 "c")
  ∧ subscript_string_const false 0 0 "c" (example_dictionary 0 0)
    = Returns (Value_default 0 0, example_dictionary 0 0).
Proof.
  assert (Ho : reads_nothing false 0 0 (example_object 0 0)
                 (subscript_uint32_const false 0 0 7))
    by (apply absent_object_key; reflexivity).
  assert (Ha : reads_nothing false 0 0 (example_array 0 0)
                 (subscript_uint32_const false 0 0 2))
    by (apply index_out_of_range; [reflexivity | vm_compute; discriminate]).
  assert (Hd : reads_nothing false 0 0 (example_dictionary 0 0)
                 (subscript_string_const false 0 0 "c"))
    by (apply absent_dictionary_key; reflexivity).
  split; [exact Ho |].
  split; [exact (proj1 (container_read_safety false 0 0 _ _ Ho)) |].
  split; [exact Ha |].
  split; [exact (proj1 (container_read_safety false 0 0 _ _ Ha)) |].
  split; [exact Hd |].
  exact (proj1 (container_read_safety false 0 0 _ _ Hd)).
Defined.

Lemma integer_accessors_witness :
  is_integer_type (type (Value_uint16 0 0 65535)) = true
  ∧ asUInt64 false (Value_uint16 0 0 65535)
    = Returns (65535, Value_uint16 0 0 65535)
  ∧ asUInt8 false (Value_uint16 0 0 65535)
    = Returns (255, Value_uint16 0 0 65535)
  ∧ asInt8 false (Value_uint16 0 0 65535)
    = Returns ((-1)%Z, Value_uint16 0 0 65535).
Proof.
  assert (H : is_integer_type (type (Value_uint16 0 0 65535)) = true)
    by reflexivity.
  destruct (integer_accessors false (Value_uint16 0 0 65535) 65535 H eq_refl)
    as (H64 & _ & _ & H8 & _).
  split; [exact H |]. split; [exact H64 |]. split; [exact H8 |].
  reflexivity.
Defined.

Lemma mutable_index_coerces_to_array_witness :
  type (untagged_with_element 0 0) ≠ ARRAY
  ∧ type (untagged_with_element 0 0) ≠ OBJECT
  ∧ 0 < N.of_nat (length (arrayValue (untagged_with_element 0 0)))
  ∧ subscript_uint32 true 0 0 0 (untagged_with_element 0 0)
    = Returns (ArrayElement 0, set_type ARRAY (untagged_with_element 0 0))
  ∧ subscript_uint32 false 0 0 0 (untagged_with_element 0 0)
    = AssertionFailed.
Proof.
  assert (Ha : type (untagged_with_element 0 0) ≠ ARRAY) by discriminate.
  assert (Ho : type (untagged_with_element 0 0) ≠ OBJECT) by discriminate.
  assert (Hk : 0 < N.of_nat (length (arrayValue (untagged_with_element 0 0))))
    by reflexivity.
  split; [exact Ha |]. split; [exact Ho |]. split; [exact Hk |]. split.
  - exact (proj1 (proj1 (mutable_index_coerces_to_array true 0 0 _ 0 Ha Ho Hk)
                    eq_refl)).
  - exact (proj2 (mutable_index_coerces_to_array false 0 0 _ 0 Ha Ho Hk)
             eq_refl).
Defined.

(** C6 fails on a default-constructed node and index 0: with assertions
    compiled in the call stops at the assertion, with assertions compiled
    out it indexes an empty vector. *)
Lemma mutable_index_on_fresh_node :
  type (Value_default 0 0) = NONE
  ∧ arrayValue (Value_default 0 0) = []
  ∧ subscript_uint32 false 0 0 0 (Value_default 0 0) = AssertionFailed
  ∧ subscript_uint32 true 0 0 0 (Value_default 0 0) = UndefinedBehaviour.
Proof. repeat split. Qed.

(** C7 (what the code does at the failing call). On a default-constructed
    node, tagged NONE, with assertions compiled in, [append] returns
    normally with the element pushed and the tag still NONE, where
    [getSize], [begin] and [end] stop at their assertion. *)
Lemma append_on_untagged_node :
  append (Value_uint8 0 0 5) (Value_default 0 0)
  = Returns ((), untagged_with_element 0 0)
  ∧ type (untagged_with_element 0 0) = NONE
  ∧ getSize false (Value_default 0 0) = AssertionFailed
  ∧ begin_ false (Value_default 0 0) = AssertionFailed
  ∧ end_ false (Value_default 0 0) = AssertionFailed.
Proof. repeat split. Qed.

(** * The interface properties on concrete nodes *)

Lemma guarded_members_stop_on_foreign_tag_witness :
  false = false
  ∧ asUInt64 false (Value_string 0 0 "hi") = AssertionFailed
  ∧ asVector false (Value_string 0 0 "hi") = AssertionFailed
  ∧ subscript_uint32 false 0 0 0 (Value_string 0 0 "hi") = AssertionFailed.
Proof.
  destruct (guarded_members_stop_on_foreign_tag false 0 0 (λ n, n)
              (Value_string 0 0 "hi") eq_refl)
    as (Hint & _ & _ & _ & _ & _ & Hvector & _ & _ & _ & _ & _ & Hindex).
  split; [reflexivity |].
  split; [exact (proj2 (proj1 (Hint U64)) eq_refl) |].
  split; [apply Hvector; discriminate |].
  apply (Hindex 0); discriminate.
Defined.

Lemma narrowed_integer_reads_back_witness :
  300 < 2 ^ width_bits U32
  ∧ asUInt16 false (Value_uint 0 0 U32 300)
    = Returns (300, Value_uint 0 0 U32 300).
Proof.
  assert (H : 300 < 2 ^ width_bits U32) by reflexivity.
  split; [exact H |].
  destruct (narrowed_integer_reads_back false 0 0 U32 300 (Value_default 0 0) H)
    as [(w' & Hw' & Hread & _) _].
  vm_compute in Hw'. injection Hw' as <-. exact Hread.
Defined.

Lemma signed_accessor_reads_witness :
  is_integer_type (type (Value_uint8 0 0 200)) = true
  ∧ intValue (Value_uint8 0 0 200) < 2 ^ width_bits U8
  ∧ asInt8 false (Value_uint8 0 0 200)
    = Returns ((-56)%Z, Value_uint8 0 0 200).
Proof.
  split; [reflexivity |]. split; [reflexivity |].
  exact (signed_accessor_reads false U8 (Value_uint8 0 0 200) eq_refl eq_refl).
Defined.

Lemma mutable_index_object_finds_or_inserts_witness :
  type (example_object 0 0) = OBJECT
  ∧ hasElement_uint32 false 7 (example_object 0 0)
    = Returns (false, example_object 0 0)
  ∧ ∃ this', subscript_uint32 false 0 0 7 (example_object 0 0)
             = Returns (ObjectElement 7, this')
             ∧ hasElement_uint32 false 7 this' = Returns (true, this')
             ∧ subscript_uint32_const false 0 0 7 this'
               = Returns (Value_default 0 0, this').
Proof.
  split; [reflexivity |]. split; [reflexivity |].
  destruct (mutable_index_object_finds_or_inserts false 0 0
              (example_object 0 0) 7 eq_refl)
    as (this' & Hrun & _ & _ & _ & _ & _ & _ & Hhas & Hread).
  exists this'. split; [exact Hrun |]. split; [exact Hhas | exact Hread].
Defined.

Lemma mutable_index_dictionary_finds_or_inserts_witness :
  type (example_dictionary 0 0) = DICTIONARY
  ∧ ∃ this', subscript_string false 0 0 "ab" (example_dictionary 0 0)
             = Returns (DictionaryElement "ab", this')
             ∧ this' = example_dictionary 0 0
             ∧ subscript_string_const false 0 0 "ab" this'
               = Returns (Value_bytes 0 0 [x01; x02], this').
Proof.
  split; [reflexivity |].
  destruct (mutable_index_dictionary_finds_or_inserts false 0 0
              (example_dictionary 0 0) "ab" eq_refl)
    as (this' & Hrun & _ & _ & _ & _ & Hsame & _ & _ & Hread).
  exists this'. split; [exact Hrun |].
  split; [apply Hsame; by eexists | exact Hread].
Defined.

Lemma read_agrees_with_hasElement_witness :
  (type (example_array 0 0) = OBJECT ∨ type (example_array 0 0) = ARRAY)
  ∧ hasElement_uint32 false 1 (example_array 0 0)
    = Returns (true, example_array 0 0)
  ∧ subscript_uint32_const false 0 0 1 (example_array 0 0)
    = Returns (Value_uint8 0 0 5, example_array 0 0).
Proof.
  assert (H : type (example_array 0 0) = OBJECT
              ∨ type (example_array 0 0) = ARRAY) by (right; reflexivity).
  split; [exact H |].
  exact (read_agrees_with_hasElement false 0 0 (example_array 0 0) 1 H).
Defined.

Lemma mutable_index_array_does_not_grow_witness :
  type (example_array 0 0) = ARRAY
  ∧ subscript_uint32 false 0 0 1 (example_array 0 0)
    = Returns (ArrayElement 1, example_array 0 0)
  ∧ subscript_uint32 false 0 0 2 (example_array 0 0) = UndefinedBehaviour
  ∧ subscript_uint32_const false 0 0 2 (example_array 0 0)
    = Returns (Value_default 0 0, example_array 0 0).
Proof.
  split; [reflexivity |].
  destruct (mutable_index_array_does_not_grow false 0 0 (example_array 0 0) 1
              eq_refl) as [Hin _].
  destruct (mutable_index_array_does_not_grow false 0 0 (example_array 0 0) 2
              eq_refl) as [_ Hout].
  split; [exact (proj1 (Hin eq_refl)) |].
  assert (Hle : N.of_nat (length (arrayValue (example_array 0 0))) ≤ 2)
    by (vm_compute; discriminate).
  split; [exact (proj1 (Hout Hle)) | exact (proj1 (proj2 (Hout Hle)))].
Defined.

Lemma append_then_read_witness :
  type (example_array 0 0) = ARRAY
  ∧ N.of_nat (length (arrayValue (example_array 0 0))) < uint32_max
  ∧ ∃ this', append (Value_uint8 0 0 9) (example_array 0 0)
             = Returns ((), this')
             ∧ getSize false this' = Returns (3, this')
             ∧ subscript_uint32_const false 0 0 2 this'
               = Returns (Value_uint8 0 0 9, this').
Proof.
  assert (Hroom : N.of_nat (length (arrayValue (example_array 0 0)))
                  < uint32_max) by reflexivity.
  split; [reflexivity |]. split; [exact Hroom |].
  destruct (append_then_read false 0 0 (example_array 0 0) (Value_uint8 0 0 9)
              eq_refl Hroom)
    as (this' & Hrun & _ & Hsize & Hread & _).
  exists this'. split; [exact Hrun |]. split; [exact Hsize | exact Hread].
Defined.

Lemma write_through_reads_back_witness :
  (type (example_object 0 0) = OBJECT ∨ type (example_object 0 0) = ARRAY)
  ∧ subscript_uint32 false 0 0 7 (example_object 0 0)
    = Returns (ObjectElement 7,
               store (ObjectElement 7) (Value_default 0 0)
                 (example_object 0 0))
  ∧ subscript_uint32_const false 0 0 7
      (store (ObjectElement 7) (Value_uint8 0 0 9)
         (store (ObjectElement 7) (Value_default 0 0) (example_object 0 0)))
    = Returns (Value_uint8 0 0 9,
               store (ObjectElement 7) (Value_uint8 0 0 9)
                 (store (ObjectElement 7) (Value_default 0 0)
                    (example_object 0 0))).
Proof.
  assert (Htag : type (example_object 0 0) = OBJECT
                 ∨ type (example_object 0 0) = ARRAY) by (left; reflexivity).
  assert (Hindex : subscript_uint32 false 0 0 7 (example_object 0 0)
                   = Returns (ObjectElement 7,
                              store (ObjectElement 7) (Value_default 0 0)
                                (example_object 0 0)))
    by (vm_compute; reflexivity).
  split; [exact Htag |]. split; [exact Hindex |].
  exact (proj1 (write_through_reads_back false 0 0 _ _ (Value_uint8 0 0 9) 7 _
                  Htag Hindex)).
Defined.

Lemma write_through_dictionary_reads_back_witness :
  type (example_dictionary 0 0) = DICTIONARY
  ∧ subscript_string false 0 0 "ab" (example_dictionary 0 0)
    = Returns (DictionaryElement "ab", example_dictionary 0 0)
  ∧ subscript_string_const false 0 0 "ab"
      (store (DictionaryElement "ab") (Value_uint8 0 0 9)
         (example_dictionary 0 0))
    = Returns (Value_uint8 0 0 9,
               store (DictionaryElement "ab") (Value_uint8 0 0 9)
                 (example_dictionary 0 0)).
Proof.
  assert (Hindex : subscript_string false 0 0 "ab" (example_dictionary 0 0)
                   = Returns (DictionaryElement "ab", example_dictionary 0 0))
    by (vm_compute; reflexivity).
  split; [reflexivity |]. split; [exact Hindex |].
  exact (proj1 (write_through_dictionary_reads_back false 0 0
                  (example_dictionary 0 0) (example_dictionary 0 0)
                  (Value_uint8 0 0 9) "ab" (DictionaryElement "ab")
                  eq_refl Hindex)).
Defined.
